(** * The chat-session hook of the conversational search client

    A shallow embedding of [useChatSessions] (the hook that owns the session
    list, the active message buffer, the loading flag and the retrying search
    request) together with the properties its specification states about it.

    - JavaScript strings are sequences of UTF-16 code units, so [length] and
      [slice] count code units.
    - The parsed response body is an untyped JSON value; nothing checks it
      against the declared interfaces at run time.
    - React state setters do not write the state: they queue an update.  A
      handler therefore produces a log of effects, and the log is committed
      afterwards, in the order in which the calls were issued.  When React
      runs the function passed to [setSessions] depends on whether the
      component has an update pending; the environment says which.
    - Arrays are objects: the array that [JSON.parse] returns lives on a heap,
      and a state update holding it sees what [sort] did to it.
    - The effect that copies the buffer into the active session runs after a
      render that changed the buffer or the active id.

    Left out, because no property below depends on them: console output, the
    typing animation of titles and the write-back to local storage. *)

From Stdlib Require Import ZArith List Lia Ascii String Bool.
From Stdlib Require Import Floats.SpecFloat.
From Stdlib Require Import Sorting.Permutation Sorting.Sorted.
From stdpp Require Import base decidable option list gmap.
From Equations Require Import Equations.

Set Warnings "-register-all".

(** ** JavaScript values *)

Definition code_unit : Set := N.
Definition jsstring : Set := list code_unit.

(** An ASCII literal as a JavaScript string. *)
Definition lit (s : string) : jsstring :=
  List.map N_of_ascii (list_ascii_of_string s).

(** The character U+0022, which a template literal writes as a plain quote. *)
Definition dquote : jsstring := [34%N].

(** What [response.json()] resolves to.  Numbers are IEEE-754 doubles. *)
Inductive json : Type :=
| JNull
| JBool (b : bool)
| JNum (x : spec_float)
| JStr (s : jsstring)
| JArr (items : list json)
| JObj (fields : gmap jsstring json).

(** A computation that may throw. *)
#[universes(template)] Inductive result (A : Type) : Type :=
| Ok (a : A)
| Throw.
Arguments Ok {A} a.
Arguments Throw {A}.

Definition rbind {A B} (r : result A) (k : A -> result B) : result B :=
  match r with
  | Ok a => k a
  | Throw => Throw
  end.

Declare Scope result_scope.
Delimit Scope result_scope with result.
Notation "x <-! r ;; k" := (rbind r (fun x => k))
  (at level 100, r at next level, right associativity) : result_scope.

(** The six properties that [handleSendMessage] reads off the body. *)
Inductive Field : Type :=
| OrganicResults
| KnowledgeGraph
| RelatedQuestions
| RelatedSearches
| AiResponse
| LocalResults.

Definition field_name (f : Field) : jsstring :=
  match f with
  | OrganicResults => lit "organic_results"
  | KnowledgeGraph => lit "knowledge_graph"
  | RelatedQuestions => lit "related_questions"
  | RelatedSearches => lit "related_searches"
  | AiResponse => lit "ai_response"
  | LocalResults => lit "local_results"
  end.

(** [data.f]: reading a property of [null] throws a TypeError; an object
    yields its own property or [undefined] ([None]); booleans, numbers,
    strings and arrays have none of the six properties. *)
Definition get (data : json) (f : Field) : result (option json) :=
  match data with
  | JNull => Throw
  | JObj fields => Ok (fields !! field_name f)
  | _ => Ok None
  end.

(** JavaScript truthiness of a JSON value. *)
Definition truthy (v : json) : bool :=
  match v with
  | JNull => false
  | JBool b => b
  | JNum (S754_zero _) => false
  | JNum S754_nan => false
  | JNum _ => true
  | JStr s => negb (Nat.eqb (length s) 0)
  | JArr _ => true
  | JObj _ => true
  end.

(** [v || d] where [v] may be [undefined]. *)
Definition js_or (v : option json) (d : json) : json :=
  match v with
  | Some x => if truthy x then x else d
  | None => d
  end.

(** [Array.isArray(v) ? v : []]. *)
Definition array_or_empty (v : option json) : json :=
  match v with
  | Some (JArr items) => JArr items
  | _ => JArr []
  end.

Definition is_array (v : option json) : Prop :=
  exists items, v = Some (JArr items).

(** ** Messages and sessions *)

Module SafeData.
Record t : Type := mk {
  organic_results : json;
  knowledge_graph : json;
  related_questions : json;
  related_searches : json;
  ai_response : json;
  local_results : json
}.
End SafeData.

Inductive Role : Type :=
| user
| assistant.

Definition Role_eqb (a b : Role) : bool :=
  match a, b with
  | user, user => true
  | assistant, assistant => true
  | _, _ => false
  end.

(** [content] is declared a string, but an assistant message carries whatever
    truthy value the upstream service sent as [ai_response]. *)
Module ChatMessage.
Record t : Type := mk {
  role : Role;
  content : json;
  results : option SafeData.t
}.
End ChatMessage.

Definition SessionId : Set := jsstring.

Module ChatSession.
Record t : Type := mk {
  id : SessionId;
  title : jsstring;
  messages : list ChatMessage.t;
  createdAt : Z;
  updatedAt : Z
}.
End ChatSession.

(** [s.slice(0, n)] for a string. *)
Definition slice0 (n : nat) (s : jsstring) : jsstring := take n s.

(** [getChatTitle].  [None] stands for a first user message whose content is
    not a string, which the declared type excludes. *)
Definition getChatTitle (messages : list ChatMessage.t) : option jsstring :=
  match List.find (fun m => Role_eqb (ChatMessage.role m) user) messages with
  | Some firstUserMessage =>
      match ChatMessage.content firstUserMessage with
      | JStr c =>
          let title := slice0 30 c in
          Some (if length title <? length c then title ++ lit "..." else title)
      | _ => None
      end
  | None => Some (lit "New Chat")
  end.

(** ** Normalising the response body *)

Definition fallback_summary (query : jsstring) : jsstring :=
  lit "I searched for " ++ dquote ++ query ++ dquote
    ++ lit " but couldn't generate a good summary.".

(** The [safeData] object literal; properties are evaluated in source order. *)
Definition safeData (data : json) (query : jsstring) : result SafeData.t :=
  (o <-! get data OrganicResults ;;
   k <-! get data KnowledgeGraph ;;
   q <-! get data RelatedQuestions ;;
   s <-! get data RelatedSearches ;;
   a <-! get data AiResponse ;;
   l <-! get data LocalResults ;;
   Ok (SafeData.mk (array_or_empty o) (js_or k JNull) (array_or_empty q)
         (array_or_empty s) (js_or a (JStr (fallback_summary query)))
         (array_or_empty l)))%result.

Definition assistant_reply (sd : SafeData.t) : ChatMessage.t :=
  ChatMessage.mk assistant (SafeData.ai_response sd) (Some sd).

(** ** The environment *)

(** What [localStorage.getItem("chat-sessions")] finds: nothing, the empty
    text, a text on which [JSON.parse] throws, or the serialised sessions (a
    text that parses to anything but an array of sessions is excluded by the
    cast to [ChatSession[]]). *)
Inductive StoredItem : Type :=
| NoItem
| EmptyText
| Unparsable
| SessionsJson (parsed : list ChatSession.t).

(** How one [fetch] settles: the promise rejects, or a response arrives whose
    body parses to a JSON value or does not parse ([None]). *)
Inductive FetchOutcome : Type :=
| Rejected
| Response (status : Z) (body : option json).

Definition response_ok (status : Z) : bool :=
  (200 <=? status)%Z && (status <=? 299)%Z.

(** Everything the hook reads from outside: the values that successive calls
    of [Math.random]-based [generateId], [Date.now] and [fetch] produce, with
    the number of calls made so far; the configured host; the stored item;
    the arrays that live on the heap, addressed by index; and whether React
    finds the component without a pending update when a handler calls
    [setSessions]. *)
Record World : Type := mkWorld {
  random_ids : nat -> SessionId;
  ids_drawn : nat;
  clock : nat -> Z;
  clock_reads : nat;
  upstream : nat -> FetchOutcome;
  requests : nat;
  NEXT_PUBLIC_API_URL : jsstring;
  chat_sessions_item : StoredItem;
  heap : list (list ChatSession.t);
  fiber_idle : bool
}.

(** ** Effects *)

(** One entry per state-setter call, request or timer.  The argument of
    [setSessions] is a function of the previous list; it may itself call
    setters, and [apply_effect] says in which order React processes them. *)
Inductive effect : Type :=
| SetSessions
    (upd : list ChatSession.t -> World -> list ChatSession.t * list effect * World)
| SetActiveSessionId (v : option SessionId)
| SetMessages (upd : list ChatMessage.t -> list ChatMessage.t)
| SetIsLoading (v : bool)
| Fetch (url : jsstring)
| Sleep (ms : Z).

Definition E (A : Type) : Type := World -> A * list effect * World.

Definition ret {A} (a : A) : E A := fun w => (a, [], w).

Definition bind {A B} (c : E A) (k : A -> E B) : E B :=
  fun w =>
    let '(a, log1, w1) := c w in
    let '(b, log2, w2) := k a w1 in
    (b, log1 ++ log2, w2).

Declare Scope eff_scope.
Delimit Scope eff_scope with eff.
Bind Scope eff_scope with E.
Notation "x <- c ;; k" := (bind c (fun x => k))
  (at level 100, c at next level, k at level 200, right associativity) : eff_scope.
Notation "c ;; k" := (bind c (fun _ => k))
  (at level 100, k at level 200, right associativity) : eff_scope.

Definition emit (e : effect) : E unit := fun w => (tt, [e], w).

(** A state-setter called with a value rather than an updater. *)
Definition value {A} (v : A) : A -> A := fun _ => v.

(** The updater [(prev) => [...prev, x]]. *)
Definition append {A} (x : A) : list A -> list A := fun prev => prev ++ [x].

(** ** Component state *)

Record State : Type := mkState {
  sessions : list ChatSession.t;
  activeSessionId : option SessionId;
  messages : list ChatMessage.t;
  isLoading : bool
}.

Definition initial_state : State := mkState [] None [] false.

(** Processing one queued update.  The argument of [setSessions] is a
    function, and React runs it at one of two moments.  When the component has
    an update pending, the function runs while the component renders: the
    setter calls it makes are processed after its own result is in place.
    When the component is idle, the function runs inside the [setSessions]
    call, before the update is queued: the setter calls it makes are queued
    first, and its result then replaces what a [setSessions] among them
    produced.  Of the handlers only [deleteSession] passes a function that
    calls one of these four setters, and it makes no other call. *)
Fixpoint apply_effect (e : effect) (s : State * World) {struct e} : State * World :=
  match e with
  | SetSessions upd =>
      match upd (sessions (fst s)) (snd s) with
      | (next, nested, w) =>
          let commit_nested :=
            fix commit_nested (l : list effect) (s : State * World) : State * World :=
              match l with
              | [] => s
              | e' :: l' => commit_nested l' (apply_effect e' s)
              end in
          if fiber_idle w then
            let s' := commit_nested nested (fst s, w) in
            (mkState next (activeSessionId (fst s')) (messages (fst s'))
               (isLoading (fst s')), snd s')
          else
            commit_nested nested
              (mkState next (activeSessionId (fst s)) (messages (fst s))
                 (isLoading (fst s)), w)
      end
  | SetActiveSessionId v =>
      (mkState (sessions (fst s)) v (messages (fst s)) (isLoading (fst s)), snd s)
  | SetMessages upd =>
      (mkState (sessions (fst s)) (activeSessionId (fst s)) (upd (messages (fst s)))
         (isLoading (fst s)), snd s)
  | SetIsLoading v =>
      (mkState (sessions (fst s)) (activeSessionId (fst s)) (messages (fst s)) v,
       snd s)
  | Fetch _ => s
  | Sleep _ => s
  end.

Fixpoint commit (log : list effect) (s : State * World) : State * World :=
  match log with
  | [] => s
  | e :: log' => commit log' (apply_effect e s)
  end.

(** Running a handler against the rendered state and committing what it
    queued. *)
Definition dispatch {A} (handler : State -> E A) (s : State * World)
  : A * list effect * (State * World) :=
  let '(a, log, w) := handler (fst s) (snd s) in
  (a, log, commit log (fst s, w)).

(** ** Environment calls *)

Definition generateId : E SessionId :=
  fun w =>
    (random_ids w (ids_drawn w), [],
     mkWorld (random_ids w) (S (ids_drawn w)) (clock w) (clock_reads w)
       (upstream w) (requests w) (NEXT_PUBLIC_API_URL w) (chat_sessions_item w)
       (heap w) (fiber_idle w)).

Definition Date_now : E Z :=
  fun w =>
    (clock w (clock_reads w), [],
     mkWorld (random_ids w) (ids_drawn w) (clock w) (S (clock_reads w))
       (upstream w) (requests w) (NEXT_PUBLIC_API_URL w) (chat_sessions_item w)
       (heap w) (fiber_idle w)).

Definition fetch (url : jsstring) : E FetchOutcome :=
  fun w =>
    (upstream w (requests w), [Fetch url],
     mkWorld (random_ids w) (ids_drawn w) (clock w) (clock_reads w)
       (upstream w) (S (requests w)) (NEXT_PUBLIC_API_URL w) (chat_sessions_item w)
       (heap w) (fiber_idle w)).

Definition env_API_URL : E jsstring := fun w => (NEXT_PUBLIC_API_URL w, [], w).

Definition localStorage_getItem : E StoredItem :=
  fun w => (chat_sessions_item w, [], w).

Definition with_heap (h : list (list ChatSession.t)) (w : World) : World :=
  mkWorld (random_ids w) (ids_drawn w) (clock w) (clock_reads w)
    (upstream w) (requests w) (NEXT_PUBLIC_API_URL w) (chat_sessions_item w) h
    (fiber_idle w).

(** The same world with the component idle or not. *)
Definition with_fiber_idle (idle : bool) (w : World) : World :=
  mkWorld (random_ids w) (ids_drawn w) (clock w) (clock_reads w) (upstream w)
    (requests w) (NEXT_PUBLIC_API_URL w) (chat_sessions_item w) (heap w) idle.

(** A fresh array object holding [l]; the result is its address. *)
Definition new_array (l : list ChatSession.t) : E nat :=
  fun w => (length (heap w), [], with_heap (heap w ++ [l]) w).

Definition deref (w : World) (ref : nat) : list ChatSession.t :=
  default [] (heap w !! ref).

Definition read_array (ref : nat) : E (list ChatSession.t) :=
  fun w => (deref w ref, [], w).

(** [Array.prototype.sort] is stable and works in place: [x] goes in front of
    the first element it does not compare greater than. *)
Fixpoint sort_insert {A} (compare : A -> A -> Z) (x : A) (l : list A) : list A :=
  match l with
  | [] => [x]
  | y :: l' =>
      if (compare x y <=? 0)%Z then x :: y :: l'
      else y :: sort_insert compare x l'
  end.

Fixpoint sorted_by {A} (compare : A -> A -> Z) (l : list A) : list A :=
  match l with
  | [] => []
  | x :: l' => sort_insert compare x (sorted_by compare l')
  end.

(** [arr.sort(compare)]: overwrites the array and returns the same address. *)
Definition sort_array (ref : nat) (compare : ChatSession.t -> ChatSession.t -> Z)
  : E nat :=
  fun w =>
    (ref, [], with_heap (<[ref := sorted_by compare (deref w ref)]> (heap w)) w).

(** ** [encodeURIComponent] *)

Definition unreserved (c : code_unit) : bool :=
  ((65 <=? c) && (c <=? 90) || (97 <=? c) && (c <=? 122)
   || (48 <=? c) && (c <=? 57)
   || existsb (N.eqb c) [45; 95; 46; 33; 126; 42; 39; 40; 41])%N.

Definition hex_digit (n : N) : code_unit :=
  (if n <? 10 then 48 + n else 55 + n)%N.

Definition percent (byte : N) : jsstring :=
  [37%N; hex_digit (byte / 16)%N; hex_digit (byte mod 16)%N].

Definition utf8 (cp : N) : list N :=
  (if cp <? 0x80 then [cp]
   else if cp <? 0x800 then [0xC0 + cp / 0x40; 0x80 + cp mod 0x40]
   else if cp <? 0x10000 then
     [0xE0 + cp / 0x1000; 0x80 + (cp / 0x40) mod 0x40; 0x80 + cp mod 0x40]
   else
     [0xF0 + cp / 0x40000; 0x80 + (cp / 0x1000) mod 0x40;
      0x80 + (cp / 0x40) mod 0x40; 0x80 + cp mod 0x40])%N.

Definition escape (cp : N) : jsstring := concat (List.map percent (utf8 cp)).

Definition low_surrogate (c : code_unit) : bool :=
  ((0xDC00 <=? c) && (c <=? 0xDFFF))%N.

Definition high_surrogate (c : code_unit) : bool :=
  ((0xD800 <=? c) && (c <=? 0xDBFF))%N.

(** Throws a URIError on a surrogate that is not part of a pair. *)
Fixpoint encodeURIComponent (s : jsstring) : result jsstring :=
  match s with
  | [] => Ok []
  | c :: rest =>
      if unreserved c then
        (r <-! encodeURIComponent rest ;; Ok (c :: r))%result
      else if low_surrogate c then Throw
      else if high_surrogate c then
        match rest with
        | c2 :: rest' =>
            if low_surrogate c2 then
              (r <-! encodeURIComponent rest' ;;
               Ok (escape ((c - 0xD800) * 0x400 + (c2 - 0xDC00) + 0x10000)%N ++ r))%result
            else Throw
        | [] => Throw
        end
      else (r <-! encodeURIComponent rest ;; Ok (escape c ++ r))%result
  end.

(** ** The hook: sessions *)

Definition setSessions (upd : list ChatSession.t -> E (list ChatSession.t)) : E unit :=
  emit (SetSessions upd).
Definition setActiveSessionId (v : option SessionId) : E unit :=
  emit (SetActiveSessionId v).
Definition setMessages (upd : list ChatMessage.t -> list ChatMessage.t) : E unit :=
  emit (SetMessages upd).
Definition setIsLoading (v : bool) : E unit :=
  emit (SetIsLoading v).

Definition createNewSession : E unit :=
  (id <- generateId ;;
   createdAt <- Date_now ;;
   updatedAt <- Date_now ;;
   let newSession := ChatSession.mk id (lit "New Chat") [] createdAt updatedAt in
   setSessions (fun prev => ret (newSession :: prev)) ;;
   setActiveSessionId (Some (ChatSession.id newSession)) ;;
   setMessages (value []))%eff.

(** The comparator [(a, b) => b.updatedAt - a.updatedAt]. *)
Definition by_updatedAt_desc (a b : ChatSession.t) : Z :=
  (ChatSession.updatedAt b - ChatSession.updatedAt a)%Z.

(** The mount effect that reads the stored sessions.  [setSessions] is handed
    the array object itself, and [sort] then reorders that same object. *)
Definition load_sessions : E (result unit) :=
  (savedSessions <- localStorage_getItem ;;
   match savedSessions with
   | NoItem | EmptyText => createNewSession ;; ret (Ok tt)
   | Unparsable => ret Throw
   | SessionsJson parsed =>
       parsedSessions <- new_array parsed ;;
       setSessions (fun _ => read_array parsedSessions) ;;
       contents <- read_array parsedSessions ;;
       if 0 <? length contents then
         sorted <- sort_array parsedSessions by_updatedAt_desc ;;
         contents <- read_array sorted ;;
         match contents with
         | mostRecent :: _ =>
             setActiveSessionId (Some (ChatSession.id mostRecent)) ;;
             setMessages (value (ChatSession.messages mostRecent)) ;;
             ret (Ok tt)
         | [] => ret Throw
         end
       else (createNewSession ;; ret (Ok tt))
   end)%eff.

(** [deleteSession]; [rendered] is the state the handler closed over. *)
Definition deleteSession (sessionId : SessionId) (rendered : State) : E unit :=
  setSessions (fun prevSessions =>
    let remainingSessions :=
      filter (fun s => ChatSession.id s <> sessionId) prevSessions in
    ((if decide (activeSessionId rendered = Some sessionId) then
        match remainingSessions with
        | nextSession :: _ =>
            setActiveSessionId (Some (ChatSession.id nextSession)) ;;
            setMessages (value (ChatSession.messages nextSession))
        | [] => createNewSession
        end
      else ret tt) ;;
     ret remainingSessions)%eff).

(** ** The hook: sending a message *)

Definition maxRetries : nat := 3.

Definition failure_notice : jsstring :=
  lit "I'm having trouble connecting to the search service. This might be due to rate limiting or a temporary issue. Please try again in a moment.".

Definition search_url (host encoded : jsstring) : jsstring :=
  lit "https://" ++ host ++ lit "/api/v1/search?query=" ++ encoded.

(** [Math.pow(2, retryCount) * 1000]. *)
Definition backoff_delay (retryCount : nat) : Z :=
  (2 ^ Z.of_nat retryCount * 1000)%Z.

(** The [try] block; [Ok] means that [success = true] was reached.  A
    response that is not ok throws whatever [response.text()] does. *)
Definition try_block (query : jsstring) : E (result unit) :=
  (host <- env_API_URL ;;
   match encodeURIComponent query with
   | Throw => ret Throw
   | Ok encoded =>
       response <- fetch (search_url host encoded) ;;
       match response with
       | Rejected => ret Throw
       | Response status body =>
           if negb (response_ok status) then ret Throw
           else
             match body with
             | None => ret Throw
             | Some data =>
                 match safeData data query with
                 | Throw => ret Throw
                 | Ok sd =>
                     setMessages (append (assistant_reply sd)) ;;
                     ret (Ok tt)
                 end
             end
       end
   end)%eff.

(** The [catch] block, entered after [retryCount++]. *)
Definition catch_block (retryCount : nat) : E unit :=
  if maxRetries <=? retryCount then
    setMessages (append (ChatMessage.mk assistant (JStr failure_notice) None))
  else emit (Sleep (backoff_delay retryCount)).

Definition finally_block (retryCount : nat) (success : bool) : E unit :=
  if success || (maxRetries <=? retryCount) then setIsLoading false else ret tt.

(** [while (retryCount < maxRetries && !success) { ... }] *)
Equations? retry_loop (query : jsstring) (retryCount : nat) (success : bool)
    (w : World) : unit * list effect * World
  by wf (if success then 0 else S (maxRetries - retryCount)) lt :=
retry_loop query retryCount success w
    with Equations.Prop.Logic.inspect ((retryCount <? maxRetries) && negb success) := {
  | exist _ false _ => ret tt w
  | exist _ true continue =>
      (attempt <- try_block query ;;
       match attempt with
       | Ok _ =>
           finally_block retryCount true ;;
           (fun w' => retry_loop query retryCount true w')
       | Throw =>
           catch_block (S retryCount) ;;
           finally_block (S retryCount) success ;;
           (fun w' => retry_loop query (S retryCount) success w')
       end)%eff w }.
Proof.
  all: apply andb_prop in continue as [bound running];
    apply Nat.ltb_lt in bound; apply negb_true_iff in running; subst success;
    unfold maxRetries in *; lia.
Defined.

(** [handleSendMessage]; [rendered] is the state the handler closed over. *)
Definition handleSendMessage (query : jsstring) (rendered : State) : E unit :=
  ((if Nat.eqb (length (sessions rendered)) 0 then createNewSession else ret tt) ;;
   setMessages (append (ChatMessage.mk user (JStr query) None)) ;;
   setIsLoading true ;;
   retry_loop query 0 false)%eff.

(** ** Running the hook *)

(** The handlers that the presentation layer invokes on the session store. *)
Inductive operation : Type :=
| CreateSession
| DeleteSession (sessionId : SessionId).

Definition handler (op : operation) : State -> E unit :=
  match op with
  | CreateSession => fun _ => createNewSession
  | DeleteSession sessionId => deleteSession sessionId
  end.

Definition perform (op : operation) (s : State * World) : State * World :=
  snd (dispatch (handler op) s).




(** Mounting the hook: the mount effect runs against the initial state. *)
Definition initialize (w : World) : result unit * list effect * (State * World) :=
  dispatch (fun _ => load_sessions) (initial_state, w).

Definition log_of {A} (r : A * list effect * World) : list effect := snd (fst r).

(** The state once [handleSendMessage] has settled and its updates are in. *)
Definition send_state (query : jsstring) (st : State) (w : World) : State :=
  fst (snd (dispatch (handleSendMessage query) (st, w))).

(** ** Reading a log *)

Definition is_fetch (e : effect) : bool :=
  match e with
  | Fetch _ => true
  | _ => false
  end.

(** The number of requests issued. *)
Definition fetches (log : list effect) : nat := length (List.filter is_fetch log).

(** The requests and timers, in order. *)
Definition io (log : list effect) : list effect :=
  List.filter (fun e => match e with Fetch _ | Sleep _ => true | _ => false end) log.

(** The values written to the loading flag, in order. *)
Fixpoint loading_writes (log : list effect) : list bool :=
  match log with
  | [] => []
  | SetIsLoading v :: log' => v :: loading_writes log'
  | _ :: log' => loading_writes log'
  end.

(** The arguments of the [setMessages] calls, in order. *)
Fixpoint message_writes (log : list effect)
  : list (list ChatMessage.t -> list ChatMessage.t) :=
  match log with
  | [] => []
  | SetMessages upd :: log' => upd :: message_writes log'
  | _ :: log' => message_writes log'
  end.

Definition user_message (query : jsstring) : ChatMessage.t :=
  ChatMessage.mk user (JStr query) None.

Definition notice_message : ChatMessage.t :=
  ChatMessage.mk assistant (JStr failure_notice) None.

(** The buffer that the user message is appended to: [createNewSession]
    empties it when the handler saw no session. *)
Definition buffer_before (st : State) : list ChatMessage.t :=
  if Nat.eqb (length (sessions st)) 0 then [] else messages st.

(** How an attempt ends, given how its request settles. *)
Definition attempt_result (query : jsstring) (o : FetchOutcome) : result SafeData.t :=
  match encodeURIComponent query with
  | Throw => Throw
  | Ok _ =>
      match o with
      | Rejected => Throw
      | Response status body =>
          if response_ok status then
            match body with
            | Some data => safeData data query
            | None => Throw
            end
          else Throw
      end
  end.

(** How the [k]-th attempt of a dispatch started in [w] ends ([k] from 0). *)
Definition settles (query : jsstring) (w : World) (k : nat) : result SafeData.t :=
  attempt_result query (upstream w (requests w + k)).

(** The request an attempt issues, if the query can be encoded at all. *)
Definition request_log (query : jsstring) (w : World) : list effect :=
  match encodeURIComponent query with
  | Ok encoded => [Fetch (search_url (NEXT_PUBLIC_API_URL w) encoded)]
  | Throw => []
  end.

Definition request_made (query : jsstring) (w : World) : World :=
  match encodeURIComponent query with
  | Ok _ =>
      mkWorld (random_ids w) (ids_drawn w) (clock w) (clock_reads w)
        (upstream w) (S (requests w)) (NEXT_PUBLIC_API_URL w) (chat_sessions_item w)
        (heap w) (fiber_idle w)
  | Throw => w
  end.

(** The assistant message a dispatch ends with. *)
Definition final_reply (query : jsstring) (w : World) : ChatMessage.t :=
  match settles query w 0, settles query w 1, settles query w 2 with
  | Ok sd, _, _ => assistant_reply sd
  | Throw, Ok sd, _ => assistant_reply sd
  | Throw, Throw, Ok sd => assistant_reply sd
  | Throw, Throw, Throw => notice_message
  end.

(** The requests and timers of a dispatch. *)
Definition attempts_io (query : jsstring) (w : World) : list effect :=
  let request := request_log query w in
  match settles query w 0, settles query w 1 with
  | Ok _, _ => request
  | Throw, Ok _ => request ++ Sleep (backoff_delay 1) :: request
  | Throw, Throw =>
      request ++ Sleep (backoff_delay 1) :: request
        ++ Sleep (backoff_delay 2) :: request
  end.

(** The session the store creates in world [w]. *)
Definition fresh_session (w : World) : ChatSession.t :=
  ChatSession.mk (random_ids w (ids_drawn w)) (lit "New Chat") []
    (clock w (clock_reads w)) (clock w (S (clock_reads w))).

(** What [handleSendMessage] queues before the user message: a new session
    when the handler saw none. *)
Definition session_log (st : State) (w : World) : list effect :=
  if Nat.eqb (length (sessions st)) 0 then
    [SetSessions (fun prev => ret (fresh_session w :: prev));
     SetActiveSessionId (Some (ChatSession.id (fresh_session w)));
     SetMessages (value [])]
  else [].

(** The world once [createNewSession] has drawn an id and read the clock
    twice. *)
Definition after_new_session (w : World) : World :=
  mkWorld (random_ids w) (S (ids_drawn w)) (clock w) (S (S (clock_reads w)))
    (upstream w) (requests w) (NEXT_PUBLIC_API_URL w) (chat_sessions_item w)
    (heap w) (fiber_idle w).

Definition session_world (st : State) (w : World) : World :=
  if Nat.eqb (length (sessions st)) 0 then after_new_session w else w.

(** The active id names a session of the list, unless the list is empty. *)
Definition active_in_list (st : State) : Prop :=
  sessions st <> [] ->
  exists s, s ∈ sessions st /\ activeSessionId st = Some (ChatSession.id s).

(** The active id names exactly one session of the list. *)
Definition exactly_one_active (st : State) : Prop :=
  exists a, activeSessionId st = Some a /\
    length (filter (fun s => ChatSession.id s = a) (sessions st)) = 1.

(** The statement of a normalised array field: the upstream array when there
    is one, the empty array otherwise, and an array in any case. *)
Definition defaulted (upstream_value : option json) (field : json) : Prop :=
  (forall items, upstream_value = Some (JArr items) -> field = JArr items) /\
  (~ is_array upstream_value -> field = JArr []) /\
  (exists items, field = JArr items).

(** The fallback sentence in the words of the specification: the query,
    between quotes, after "I searched for" and before "but couldn't generate a
    good summary." *)
Definition quoted_fallback (query : jsstring) : jsstring :=
  lit ("I searched for " ++ String "034" EmptyString)%string ++ query
    ++ lit (String "034" " but couldn't generate a good summary.")%string.

(** The assistant message the specification expects when the summary is
    missing: that sentence as content, the normalised object as results. *)
Definition fallback_reply (query : jsstring) (sd : SafeData.t) : ChatMessage.t :=
  ChatMessage.mk assistant (JStr (quoted_fallback query)) (Some sd).

(** The values of JSON that JavaScript takes for false: [null], [false], the
    two zeros, not-a-number and the empty string. *)
Inductive falsy : json -> Prop :=
| falsy_null : falsy JNull
| falsy_false : falsy (JBool false)
| falsy_zero (negative : bool) : falsy (JNum (S754_zero negative))
| falsy_nan : falsy (JNum S754_nan)
| falsy_empty : falsy (JStr []).

(** ** Sample data *)

(** A world in which every request is rejected, nothing is stored and the
    component has no update pending. *)
Definition offline_world : World :=
  mkWorld (fun k => lit "session" ++ [N.of_nat k]) 0 (fun k => 1700000000000 + Z.of_nat k)%Z 0
    (fun _ => Rejected) 0 (lit "search.example.org") NoItem [] true.

Definition with_upstream (up : nat -> FetchOutcome) (w : World) : World :=
  mkWorld (random_ids w) (ids_drawn w) (clock w) (clock_reads w) up (requests w)
    (NEXT_PUBLIC_API_URL w) (chat_sessions_item w) (heap w) (fiber_idle w).

Definition with_item (item : StoredItem) (w : World) : World :=
  mkWorld (random_ids w) (ids_drawn w) (clock w) (clock_reads w) (upstream w)
    (requests w) (NEXT_PUBLIC_API_URL w) item (heap w) (fiber_idle w).

(** The number [m * 2^e]. *)
Definition number (m : positive) (e : Z) : json := JNum (S754_finite false m e).

Definition cafe_a : json :=
  JObj (<[lit "title" := JStr (lit "Cafe A")]>
       (<[lit "address" := JStr (lit "1 Main St")]>
       (<[lit "rating" := number 9 (-1)]>
       (<[lit "reviews" := number 120 0]>
       (<[lit "gps_coordinates" :=
            JObj (<[lit "latitude" := number 1 0]>
                 (<[lit "longitude" := number 2 0]> ∅))]> ∅))))).

Definition coffee_link : json :=
  JObj (<[lit "title" := JStr (lit "Coffee guide")]>
       (<[lit "link" := JStr (lit "https://example.org/coffee")]>
       (<[lit "snippet" := JStr (lit "Where to drink coffee")]> ∅))).

(** A body with organic and local results and no [ai_response]. *)
Definition coffee_body : json :=
  JObj (<[lit "organic_results" := JArr [coffee_link]]>
       (<[lit "local_results" := JArr [cafe_a]]> ∅)).

Definition coffee_query : jsstring := lit "best coffee near me".

(** The summary the specification quotes for that query, as one text. *)
Definition coffee_summary : jsstring :=
  lit ("I searched for " ++ String "034" "best coffee near me"
         ++ String "034" " but couldn't generate a good summary.")%string.

(** Most recently updated first. *)
Definition newer_first (a b : ChatSession.t) : Prop :=
  (ChatSession.updatedAt b <= ChatSession.updatedAt a)%Z.

(** There is an active id, and it names a session of the list unless the
    list is empty. *)
Definition active_named (st : State) : Prop :=
  exists a, activeSessionId st = Some a /\
            (sessions st = [] \/ a ∈ (ChatSession.id <$> sessions st)).

(** What every reachable store satisfies when generated ids are unique,
    relative to the world [w0] the hook was mounted in: the active id is
    named as above, ids are pairwise distinct, and no id of the list will be
    drawn again. *)
Definition store_invariant (w0 : World) (s : State * World) : Prop :=
  active_named (fst s) /\
  NoDup (ChatSession.id <$> sessions (fst s)) /\
  random_ids (snd s) = random_ids w0 /\
  (forall x k, x ∈ sessions (fst s) -> ids_drawn (snd s) <= k ->
               ChatSession.id x <> random_ids w0 k).

(** Generated ids never repeat, and none of them is stored already. *)
Definition ids_are_unique (w : World) : Prop :=
  (forall i j, random_ids w i = random_ids w j -> i = j) /\
  (forall parsed, chat_sessions_item w = SessionsJson parsed ->
     NoDup (ChatSession.id <$> parsed) /\
     forall x k, x ∈ parsed -> ChatSession.id x <> random_ids w k).

Definition older_session : ChatSession.t :=
  ChatSession.mk (lit "a1b2c3d4") (lit "best coffee near me")
    [user_message coffee_query; notice_message] 1700000000000 1700000000500.

Definition newer_session : ChatSession.t :=
  ChatSession.mk (lit "e5f6g7h8") (lit "New Chat") [] 1700000001000 1700000002000.

(** ** The hook: switching sessions and copying the buffer *)

(** [switchSession]; [rendered] is the state the handler closed over. *)
Definition switchSession (sessionId : SessionId) (rendered : State) : E unit :=
  match
    List.find (fun s => bool_decide (ChatSession.id s = sessionId)) (sessions rendered)
  with
  | Some session =>
      (setActiveSessionId (Some sessionId) ;;
       setMessages (value (ChatSession.messages session)))%eff
  | None => ret tt
  end.

(** The callback that [updateSession] maps over the sessions; [Throw] when
    [getChatTitle] yields no string.  The typing animation it starts lives in
    state of its own and is left out. *)
Definition updated_session (sessionId : SessionId) (newMessages : list ChatMessage.t)
    (session : ChatSession.t) : E (result ChatSession.t) :=
  if decide (ChatSession.id session = sessionId) then
    let shouldUpdateTitle :=
      bool_decide (ChatSession.title session = lit "New Chat")
      && (0 <? length newMessages) in
    match
      (if shouldUpdateTitle then getChatTitle newMessages
       else Some (ChatSession.title session))
    with
    | Some title =>
        (updatedAt <- Date_now ;;
         ret (Ok (ChatSession.mk (ChatSession.id session) title newMessages
                    (ChatSession.createdAt session) updatedAt)))%eff
    | None => ret Throw
    end
  else ret (Ok session).

(** [prevSessions.map(callback)], front to back, stopping at a throw. *)
Fixpoint map_sessions (callback : ChatSession.t -> E (result ChatSession.t))
    (prevSessions : list ChatSession.t) : E (result (list ChatSession.t)) :=
  match prevSessions with
  | [] => ret (Ok [])
  | session :: rest =>
      (mapped <- callback session ;;
       match mapped with
       | Throw => ret Throw
       | Ok session' =>
           mapped_rest <- map_sessions callback rest ;;
           match mapped_rest with
           | Throw => ret Throw
           | Ok rest' => ret (Ok (session' :: rest'))
           end
       end)%eff
  end.

(** [updateSession], as the transition its queued update makes. *)
Definition updateSession (sessionId : SessionId) (newMessages : list ChatMessage.t)
    (s : State * World) : result (State * World) :=
  match map_sessions (updated_session sessionId newMessages) (sessions (fst s)) (snd s) with
  | (Ok next, _, w) =>
      Ok (mkState next (activeSessionId (fst s)) (messages (fst s))
            (isLoading (fst s)), w)
  | (Throw, _, _) => Throw
  end.

(** The body of the effect of lines 104-108:
    [if (activeSessionId && messages.length > 0) updateSession(...)]. *)
Definition sync_active_session (s : State * World) : result (State * World) :=
  match activeSessionId (fst s) with
  | Some active =>
      if negb (Nat.eqb (length active) 0) && (0 <? length (messages (fst s))) then
        updateSession active (messages (fst s)) s
      else Ok s
  | None => Ok s
  end.

(** That effect has the dependencies [messages] and [activeSessionId]: React
    runs it after a render in which one of them is not what the render before
    had, by [Object.is].  Ids are strings and compare by content; arrays
    compare by identity, which a list does not show, so [same_buffer] says
    whether the buffer is still the array rendered before. *)
Definition sync_effect (previous : State) (same_buffer : bool) (s : State * World)
  : result (State * World) :=
  if bool_decide (activeSessionId previous = activeSessionId (fst s)) && same_buffer
  then Ok s
  else sync_active_session s.

(** Mounting with the render that follows: the first render has no active
    id, so the effect does nothing then; the mount effect sets the buffer,
    and the effect runs after the render that this causes. *)
Definition mount (w : World) : result (State * World) :=
  match initialize w with
  | (Ok _, _, s) => sync_effect initial_state false s
  | (Throw, _, _) => Throw
  end.

Definition is_await (e : effect) : bool :=
  match e with
  | Fetch _ | Sleep _ => true
  | _ => false
  end.

Definition is_setMessages (e : effect) : bool :=
  match e with
  | SetMessages _ => true
  | _ => false
  end.

(** Committing the log of [handleSendMessage] render by render.  The handler
    is asynchronous: the updates queued up to an [await] are processed in one
    render, after which the effect runs if it has to.  Every [setMessages]
    call of this handler builds a new array; [replaced] records that one was
    processed since the last render. *)
Fixpoint commit_rendering (log : list effect) (previous : State) (replaced : bool)
    (s : State * World) : result (State * World) :=
  match log with
  | [] => sync_effect previous (negb replaced) s
  | e :: log' =>
      if is_await e then
        match sync_effect previous (negb replaced) s with
        | Ok s' => commit_rendering log' (fst s') false s'
        | Throw => Throw
        end
      else
        commit_rendering log' previous (replaced || is_setMessages e) (apply_effect e s)
  end.

(** One dispatch of [handleSendMessage] with its renders. *)
Definition send (query : jsstring) (s : State * World) : result (State * World) :=
  let '(_, log, w) := handleSendMessage query (fst s) (snd s) in
  commit_rendering log (fst s) false (fst s, w).

(** What the user can do once the hook is mounted.  [same_array] says whether
    the messages of the session that [switchSession] finds are the array that
    is in the buffer already, as they are when the effect has stored the
    buffer in that session. *)
Inductive action : Type :=
| NewChat
| DeleteChat (sessionId : SessionId)
| SwitchChat (sessionId : SessionId) (same_array : bool)
| SendMessage (query : jsstring).

(** One action with the render it causes; [idle] says whether React finds the
    component without a pending update when the handler is called.
    [createNewSession] puts a new array in the buffer; [deleteSession]
    replaces the buffer only together with the active id; [switchSession]
    leaves it alone when it finds no session. *)
Definition act (idle : bool) (a : action) (s : State * World) : result (State * World) :=
  let s0 := (fst s, with_fiber_idle idle (snd s)) in
  match a with
  | NewChat => sync_effect (fst s) false (perform CreateSession s0)
  | DeleteChat sessionId => sync_effect (fst s) true (perform (DeleteSession sessionId) s0)
  | SwitchChat sessionId same_array =>
      sync_effect (fst s)
        (match
           List.find (fun x => bool_decide (ChatSession.id x = sessionId))
             (sessions (fst s))
         with
         | Some _ => same_array
         | None => true
         end)
        (snd (dispatch (switchSession sessionId) s0))
  | SendMessage query => send query s0
  end.

Fixpoint act_all (steps : list (bool * action)) (s : State * World)
  : result (State * World) :=
  match steps with
  | [] => Ok s
  | (idle, a) :: rest =>
      match act idle a s with
      | Ok s' => act_all rest s'
      | Throw => Throw
      end
  end.

(** Mounting, then a sequence of actions, each with what React finds. *)
Definition use_hook (w : World) (steps : list (bool * action)) : result (State * World) :=
  match mount w with
  | Ok s => act_all steps s
  | Throw => Throw
  end.

(** The state that a dispatch of [handleSendMessage] renders first: the user
    message is in the buffer and the flag is set. *)
Definition sending_state (query : jsstring) (st : State) (w : World) : State :=
  mkState
    (if Nat.eqb (length (sessions st)) 0 then fresh_session w :: sessions st
     else sessions st)
    (if Nat.eqb (length (sessions st)) 0
     then Some (ChatSession.id (fresh_session w)) else activeSessionId st)
    (buffer_before st ++ [user_message query]) true.

(** A state once the reply of the dispatch is in. *)
Definition with_reply (reply : ChatMessage.t) (st : State) : State :=
  mkState (sessions st) (activeSessionId st) (messages st ++ [reply]) false.

(** What the handler of an action does to the session list and the active
    id, leaving the buffer and the flag aside. *)
Definition handler_result (idle : bool) (a : action) (s : State * World)
  : State * World :=
  let s0 := (fst s, with_fiber_idle idle (snd s)) in
  match a with
  | NewChat => perform CreateSession s0
  | DeleteChat sessionId => perform (DeleteSession sessionId) s0
  | SwitchChat sessionId _ => snd (dispatch (switchSession sessionId) s0)
  | SendMessage _ =>
      if Nat.eqb (length (sessions (fst s))) 0 then perform CreateSession s0 else s0
  end.

(** Two stores with the same ids in the same order, the same active id and
    the same supply of ids. *)
Definition same_store (s s' : State * World) : Prop :=
  ChatSession.id <$> sessions (fst s') = ChatSession.id <$> sessions (fst s) /\
  activeSessionId (fst s') = activeSessionId (fst s) /\
  random_ids (snd s') = random_ids (snd s) /\
  ids_drawn (snd s') = ids_drawn (snd s).

Definition is_ok {A} (r : result A) : bool :=
  match r with
  | Ok _ => true
  | Throw => false
  end.

(** The title that [getChatTitle] derives from a first user message [c]. *)
Definition title_of (c : jsstring) : jsstring :=
  if length c <=? 30 then c else take 30 c ++ lit "...".

(** What [updateSession] may turn session [x] into. *)
Definition refreshed (sessionId : SessionId) (newMessages : list ChatMessage.t)
    (w : World) (x x' : ChatSession.t) : Prop :=
  if decide (ChatSession.id x = sessionId) then
    ChatSession.id x' = ChatSession.id x /\
    ChatSession.createdAt x' = ChatSession.createdAt x /\
    ChatSession.messages x' = newMessages /\
    (exists k, clock_reads w <= k /\ ChatSession.updatedAt x' = clock w k) /\
    (if bool_decide (ChatSession.title x = lit "New Chat") && (0 <? length newMessages)
     then getChatTitle newMessages = Some (ChatSession.title x')
     else ChatSession.title x' = ChatSession.title x)
  else x' = x.

(** ** The chat view *)

(** [messages[i]] for an index that may be negative. *)
Definition message_at (messages : list ChatMessage.t) (i : Z) : option ChatMessage.t :=
  if (i <? 0)%Z then None else messages !! Z.to_nat i.

(** [m?.role === r]. *)
Definition has_role (r : Role) (m : option ChatMessage.t) : bool :=
  match m with
  | Some m => Role_eqb (ChatMessage.role m) r
  | None => false
  end.

(** [scrollToLatestMessage]: the index of the element scrolled into view,
    given how many elements carry [data-message-item]. *)
Definition scroll_target (messages : list ChatMessage.t) (elements : nat) : option nat :=
  if 0 <? elements then
    let lastAssistantMessageIndex := (Z.of_nat (length messages) - 1)%Z in
    let userMessageIndex :=
      if (0 <? lastAssistantMessageIndex)%Z then (lastAssistantMessageIndex - 1)%Z
      else 0%Z in
    if has_role assistant (message_at messages lastAssistantMessageIndex)
       && has_role user (message_at messages userMessageIndex)
       && (Z.to_nat userMessageIndex <? elements)
    then Some (Z.to_nat userMessageIndex)
    else Some (elements - 1)
  else None.

(** [hay.startsWith(needle)] and [hay.includes(needle)] on strings. *)
Fixpoint starts_with (needle hay : jsstring) : bool :=
  match needle, hay with
  | [], _ => true
  | _ :: _, [] => false
  | a :: needle', b :: hay' => N.eqb a b && starts_with needle' hay'
  end.

Fixpoint includes (needle hay : jsstring) : bool :=
  starts_with needle hay ||
  match hay with
  | [] => false
  | _ :: hay' => includes needle hay'
  end.

Definition trouble_phrase : jsstring := lit "I'm having trouble connecting".

(** How the chat view shows one message. *)
Inductive rendering : Type :=
| RichResults
| ErrorBox
| Markdown.

(** [Array.prototype.includes] looking for a string. *)
Definition array_includes (needle : jsstring) (items : list json) : bool :=
  existsb (fun item => match item with
                       | JStr s => bool_decide (s = needle)
                       | _ => false
                       end) items.

(** The choice the message list makes for one message.  [content.includes]
    is a method of strings and arrays only. *)
Definition message_rendering (message : ChatMessage.t) : result rendering :=
  if Role_eqb (ChatMessage.role message) assistant
     && bool_decide (is_Some (ChatMessage.results message))
  then Ok RichResults
  else
    match ChatMessage.content message with
    | JStr c => Ok (if includes trouble_phrase c then ErrorBox else Markdown)
    | JArr items => Ok (if array_includes trouble_phrase items then ErrorBox else Markdown)
    | _ => Throw
    end.

(** White space and line terminators, which [trim] strips. *)
Definition is_whitespace (c : code_unit) : bool :=
  ((9 <=? c) && (c <=? 13) || (0x2000 <=? c) && (c <=? 0x200A)
   || existsb (N.eqb c) [0x20; 0xA0; 0x1680; 0x2028; 0x2029; 0x202F; 0x205F;
                         0x3000; 0xFEFF])%N.

Fixpoint trimStart (s : jsstring) : jsstring :=
  match s with
  | c :: s' => if is_whitespace c then trimStart s' else s
  | [] => []
  end.

Definition trim (s : jsstring) : jsstring := rev (trimStart (rev (trimStart s))).

(** [handleSubmit] with the hook's [handleSendMessage] as [onSendMessage];
    [message] is the text of the input.  Clearing the input is left out. *)
Definition handleSubmit (message : jsstring) (rendered : State) : E unit :=
  if negb (Nat.eqb (length (trim message)) 0) then handleSendMessage message rendered
  else ret tt.

(** ** Result widgets *)

(** What reading a property yields: nothing, a JSON value, or a method that
    the value inherits. *)
Inductive property : Type :=
| Undefined
| Value (v : json)
| Method.

(** The properties that the widgets read off the entries of a result. *)
Inductive ItemKey : Type :=
| Title
| Link
| Snippet
| Query
| Question.

Definition item_key_name (k : ItemKey) : jsstring :=
  match k with
  | Title => lit "title"
  | Link => lit "link"
  | Snippet => lit "snippet"
  | Query => lit "query"
  | Question => lit "question"
  end.

(** [item.k]: throws on [null]; of the five names only [link] is inherited,
    by strings. *)
Definition item_get (item : json) (k : ItemKey) : result property :=
  match item with
  | JNull => Throw
  | JObj fields =>
      Ok (match fields !! item_key_name k with
          | Some v => Value v
          | None => Undefined
          end)
  | JStr _ =>
      Ok (match k with
          | Link => Method
          | _ => Undefined
          end)
  | _ => Ok Undefined
  end.

Definition property_truthy (p : property) : bool :=
  match p with
  | Undefined => false
  | Value v => truthy v
  | Method => true
  end.

(** [items.map(f)] for an [f] that may throw. *)
Fixpoint map_items {A} (f : json -> result A) (items : list json) : result (list A) :=
  match items with
  | [] => Ok []
  | item :: rest =>
      (y <-! f item ;;
       ys <-! map_items f rest ;;
       Ok (y :: ys))%result
  end.

Module Source.
Record t : Type := mk {
  title : property;
  link : property;
  snippet : property
}.
End Source.

(** The [sources] that [AssistantMessage] computes from the results:
    [results?.organic_results?.map(...) || []].  Only arrays have [map]. *)
Definition sources (results : option SafeData.t) : result (list Source.t) :=
  match results with
  | Some sd =>
      match SafeData.organic_results sd with
      | JArr items =>
          map_items (fun item =>
            (t <-! item_get item Title ;;
             l <-! item_get item Link ;;
             s <-! item_get item Snippet ;;
             Ok (Source.mk t l s))%result) items
      | JNull => Ok []
      | _ => Throw
      end
  | None => Ok []
  end.

(** What the [Sources] widget shows: nothing for an empty list, else the
    cards always visible, the cards behind the toggle, and the number on the
    "Show n more" button when there is one. *)
Definition Sources {A} (sources : list A) : option (list A * list A * option nat) :=
  if Nat.eqb (length sources) 0 then None
  else
    let visibleSources := take 3 sources in
    let collapsedSources := drop 3 sources in
    Some (visibleSources, collapsedSources,
          if 0 <? length collapsedSources then Some (length collapsedSources)
          else None).

(** [relatedSearches.filter(item => item && item.query)]. *)
Definition validRelatedSearches (relatedSearches : list json) : list json :=
  List.filter (fun item =>
    truthy item &&
    match item_get item Query with
    | Ok p => property_truthy p
    | Throw => false
    end) relatedSearches.

(** The labels of the buttons that [RelatedQuestions] renders. *)
Definition question_labels (relatedQuestions : list json) : result (list property) :=
  map_items (fun item => item_get item Question) relatedQuestions.

(** The characters that cannot change the shape of a URL: the unreserved
    ones and the percent sign of an escape. *)
Definition url_safe (c : code_unit) : bool := unreserved c || N.eqb c 37.

(** * Properties *)

(** ** The retry loop *)

Ltac reassociate :=
  repeat (rewrite <- app_assoc || rewrite <- app_comm_cons); reflexivity.

Lemma retry_loop_step q rc s w :
  retry_loop q rc s w =
  if (rc <? maxRetries) && negb s then
    (attempt <- try_block q ;;
     match attempt with
     | Ok _ => finally_block rc true ;; retry_loop q rc true
     | Throw => catch_block (S rc) ;; finally_block (S rc) s ;; retry_loop q (S rc) s
     end)%eff w
  else ret tt w.
Proof.
  rewrite retry_loop_equation_1. unfold Logic.inspect.
  generalize (@eq_refl bool ((rc <? maxRetries) && negb s)).
  generalize ((rc <? maxRetries) && negb s) at 2 4 5.
  intros [] e; simp retry_loop; reflexivity.
Qed.

Lemma try_block_run q w :
  try_block q w =
  match attempt_result q (upstream w (requests w)) with
  | Ok sd =>
      (Ok tt, request_log q w ++ [SetMessages (append (assistant_reply sd))],
       request_made q w)
  | Throw => (Throw, request_log q w, request_made q w)
  end.
Proof.
  unfold try_block, attempt_result, request_log, request_made, bind, env_API_URL.
  destruct (encodeURIComponent q) as [encoded|]; [|reflexivity].
  unfold fetch. destruct (upstream w (requests w)) as [|status [data|]]; cbn;
    try reflexivity.
  - destruct (response_ok status); cbn; [|reflexivity].
    destruct (safeData data q); reflexivity.
  - destruct (response_ok status); reflexivity.
Qed.

Lemma retry_loop_done q rc w : retry_loop q rc true w = (tt, [], w).
Proof. rewrite retry_loop_step, andb_false_r. reflexivity. Qed.

Lemma retry_loop_exhausted q s w : retry_loop q maxRetries s w = (tt, [], w).
Proof. rewrite retry_loop_step. reflexivity. Qed.

Lemma retry_loop_attempt q rc w :
  rc < maxRetries ->
  retry_loop q rc false w =
  match attempt_result q (upstream w (requests w)) with
  | Ok sd =>
      (tt, request_log q w
             ++ [SetMessages (append (assistant_reply sd)); SetIsLoading false],
       request_made q w)
  | Throw =>
      let '(u, log, w') := retry_loop q (S rc) false (request_made q w) in
      (u, request_log q w
            ++ (if maxRetries <=? S rc
                then [SetMessages (append notice_message); SetIsLoading false]
                else [Sleep (backoff_delay (S rc))])
            ++ log, w')
  end.
Proof.
  intros bound. rewrite retry_loop_step.
  apply Nat.ltb_lt in bound as ->. cbn [andb negb].
  unfold bind at 1. rewrite try_block_run.
  destruct (attempt_result q (upstream w (requests w))) as [sd|].
  - unfold bind, finally_block. cbn. rewrite retry_loop_done.
    rewrite <- app_assoc. reflexivity.
  - unfold bind, catch_block, finally_block. cbn [orb].
    destruct (maxRetries <=? S rc); cbn;
      destruct (retry_loop q (S rc) false (request_made q w)) as [[u log] w'];
      reflexivity.
Qed.

Lemma settles_request_made q w k :
  settles q (request_made q w) k = settles q w (S k).
Proof.
  unfold settles, attempt_result, request_made.
  destruct (encodeURIComponent q); [|reflexivity].
  cbn. now rewrite Nat.add_succ_r.
Qed.

Lemma settles_first q w : attempt_result q (upstream w (requests w)) = settles q w 0.
Proof. unfold settles. now rewrite Nat.add_0_r. Qed.

Lemma request_log_request_made q w :
  request_log q (request_made q w) = request_log q w.
Proof.
  unfold request_log, request_made. now destruct (encodeURIComponent q).
Qed.

(** What the loop logs: the requests and timers, then the reply, then the
    write that clears the loading flag. *)
Lemma retry_loop_log q w :
  log_of (retry_loop q 0 false w) =
  attempts_io q w ++ [SetMessages (append (final_reply q w)); SetIsLoading false].
Proof.
  unfold attempts_io, final_reply, log_of.
  rewrite retry_loop_attempt by (unfold maxRetries; lia).
  rewrite settles_first. destruct (settles q w 0) as [sd0|]; [reflexivity|].
  rewrite retry_loop_attempt by (unfold maxRetries; lia).
  rewrite settles_first, settles_request_made, request_log_request_made.
  destruct (settles q w 1) as [sd1|]; cbn.
  { reassociate. }
  rewrite retry_loop_attempt by (unfold maxRetries; lia).
  rewrite settles_first, !settles_request_made, !request_log_request_made.
  destruct (settles q w 2) as [sd2|]; cbn.
  { reassociate. }
  rewrite retry_loop_exhausted. cbn.
  reassociate.
Qed.

(** ** Committing a log *)

Lemma commit_app l1 l2 s : commit (l1 ++ l2) s = commit l2 (commit l1 s).
Proof. revert s. induction l1 as [|e l1 IH]; intros s; [reflexivity|apply IH]. Qed.

(** An update of the sessions whose function calls no setter gives the same
    state whenever React runs it. *)
Lemma apply_plain_update upd st w next w' :
  upd (sessions st) w = (next, [], w') ->
  apply_effect (SetSessions upd) (st, w) =
    (mkState next (activeSessionId st) (messages st) (isLoading st), w').
Proof. intros Hupd. cbn. rewrite Hupd. now destruct (fiber_idle w'). Qed.

Lemma commit_new_session x st w :
  commit [SetSessions (fun prev => ret (x :: prev));
          SetActiveSessionId (Some (ChatSession.id x)); SetMessages (value [])]
    (st, w) =
  (mkState (x :: sessions st) (Some (ChatSession.id x)) [] (isLoading st), w).
Proof.
  cbn [commit]. rewrite (apply_plain_update _ st w (x :: sessions st) w eq_refl).
  reflexivity.
Qed.

Lemma commit_attempts_io q w s : commit (attempts_io q w) s = s.
Proof.
  unfold attempts_io, request_log.
  destruct (encodeURIComponent q), (settles q w 0), (settles q w 1); reflexivity.
Qed.

Lemma createNewSession_run w :
  createNewSession w =
  (tt,
   [SetSessions (fun prev => ret (fresh_session w :: prev));
    SetActiveSessionId (Some (ChatSession.id (fresh_session w)));
    SetMessages (value [])],
   after_new_session w).
Proof. reflexivity. Qed.

(** ** One dispatch of [handleSendMessage] *)

Lemma session_world_settles q st w k :
  settles q (session_world st w) k = settles q w k.
Proof. unfold session_world. now destruct (Nat.eqb _ _). Qed.

Lemma session_world_io q st w :
  attempts_io q (session_world st w) = attempts_io q w.
Proof.
  unfold attempts_io. rewrite !session_world_settles.
  unfold session_world, request_log. now destruct (Nat.eqb _ _).
Qed.

Lemma session_world_reply q st w :
  final_reply q (session_world st w) = final_reply q w.
Proof. unfold final_reply. now rewrite !session_world_settles. Qed.

Lemma handleSendMessage_log q st w :
  log_of (handleSendMessage q st w) =
  session_log st w
    ++ SetMessages (append (user_message q)) :: SetIsLoading true
    :: attempts_io q w
    ++ [SetMessages (append (final_reply q w)); SetIsLoading false].
Proof.
  rewrite <- (session_world_io q st w), <- (session_world_reply q st w).
  rewrite <- retry_loop_log.
  unfold handleSendMessage, session_log, session_world, log_of, bind.
  destruct (Nat.eqb (length (sessions st)) 0).
  - rewrite createNewSession_run. cbn.
    match goal with |- context [retry_loop q 0 false ?w1] =>
      destruct (retry_loop q 0 false w1) as [[u log] w2] end.
    reflexivity.
  - cbn. destruct (retry_loop q 0 false w) as [[u log] w2]. reflexivity.
Qed.

Lemma send_state_eq q st w :
  send_state q st w =
  mkState
    (if Nat.eqb (length (sessions st)) 0 then fresh_session w :: sessions st
     else sessions st)
    (if Nat.eqb (length (sessions st)) 0
     then Some (ChatSession.id (fresh_session w)) else activeSessionId st)
    (buffer_before st ++ [user_message q; final_reply q w])
    false.
Proof.
  unfold send_state, dispatch. cbn [fst snd].
  pose proof (handleSendMessage_log q st w) as Hlog. unfold log_of in Hlog.
  destruct (handleSendMessage q st w) as [[u log] w2]. cbn [fst snd] in Hlog.
  subst log. rewrite commit_app. cbn [commit].
  rewrite commit_app, commit_attempts_io.
  unfold session_log, buffer_before.
  destruct (Nat.eqb (length (sessions st)) 0); cbn; unfold append, value;
    try destruct (fiber_idle w2); rewrite <- ?app_assoc; reflexivity.
Qed.

Lemma fetches_app l1 l2 : fetches (l1 ++ l2) = fetches l1 + fetches l2.
Proof. unfold fetches. now rewrite List.filter_app, length_app. Qed.

Lemma io_app l1 l2 : io (l1 ++ l2) = io l1 ++ io l2.
Proof. apply List.filter_app. Qed.

Lemma loading_writes_app l1 l2 :
  loading_writes (l1 ++ l2) = loading_writes l1 ++ loading_writes l2.
Proof.
  induction l1 as [|[] l1 IH]; cbn; rewrite ?IH; reflexivity.
Qed.

Lemma message_writes_app l1 l2 :
  message_writes (l1 ++ l2) = message_writes l1 ++ message_writes l2.
Proof.
  induction l1 as [|[] l1 IH]; cbn; rewrite ?IH; reflexivity.
Qed.

Lemma session_log_quiet st w :
  fetches (session_log st w) = 0 /\ io (session_log st w) = [] /\
  loading_writes (session_log st w) = [].
Proof. unfold session_log. destruct (Nat.eqb _ _); repeat split. Qed.

Lemma attempts_io_quiet q w :
  io (attempts_io q w) = attempts_io q w /\
  loading_writes (attempts_io q w) = [] /\
  message_writes (attempts_io q w) = [] /\
  fetches (attempts_io q w) <= 3.
Proof.
  unfold attempts_io, request_log.
  destruct (encodeURIComponent q), (settles q w 0), (settles q w 1);
    cbn; repeat split; lia.
Qed.

(** C1. A dispatch issues at most three requests; after a failed attempt
    that is not the last it waits [2^attempt * 1000] ms (2000 after the
    first, 4000 after the second) and tries again; after three failures in a
    row the fixed notice is the one assistant message appended, and the
    loading flag ends up false. *)
Theorem handleSendMessage_retries q st w :
  let log := log_of (handleSendMessage q st w) in
  let request := request_log q w in
  fetches log <= 3 /\
  backoff_delay 1 = 2000%Z /\ backoff_delay 2 = 4000%Z /\
  match settles q w 0, settles q w 1, settles q w 2 with
  | Ok _, _, _ => io log = request
  | Throw, Ok _, _ => io log = request ++ Sleep (backoff_delay 1) :: request
  | Throw, Throw, Ok _ =>
      io log = request ++ Sleep (backoff_delay 1) :: request
                 ++ Sleep (backoff_delay 2) :: request
  | Throw, Throw, Throw =>
      io log = request ++ Sleep (backoff_delay 1) :: request
                 ++ Sleep (backoff_delay 2) :: request /\
      message_writes log =
        message_writes (session_log st w)
          ++ [append (user_message q); append notice_message] /\
      messages (send_state q st w) =
        buffer_before st ++ [user_message q; notice_message] /\
      isLoading (send_state q st w) = false
  end.
Proof.
  cbv zeta. rewrite handleSendMessage_log, send_state_eq.
  destruct (session_log_quiet st w) as (Hf & Hio & _).
  destruct (attempts_io_quiet q w) as (Hio' & _ & Hm & Hf').
  repeat split.
  - rewrite fetches_app, Hf. change (fetches (?a :: ?b :: ?l)) with (fetches l).
    rewrite fetches_app. cbn. lia.
  - assert (io (session_log st w
              ++ SetMessages (append (user_message q)) :: SetIsLoading true
              :: attempts_io q w
              ++ [SetMessages (append (final_reply q w)); SetIsLoading false])
            = attempts_io q w) as ->.
    { rewrite io_app, Hio. change (io (?a :: ?b :: ?l)) with (io l).
      rewrite io_app, Hio'. cbn. apply app_nil_r. }
    assert (message_writes
              (session_log st w
                 ++ SetMessages (append (user_message q)) :: SetIsLoading true
                 :: attempts_io q w
                 ++ [SetMessages (append (final_reply q w)); SetIsLoading false])
            = message_writes (session_log st w)
                ++ [append (user_message q); append (final_reply q w)]) as ->.
    { rewrite message_writes_app. cbn. rewrite message_writes_app, Hm.
      reflexivity. }
    unfold attempts_io, final_reply. cbn [messages isLoading].
    destruct (settles q w 0), (settles q w 1), (settles q w 2); auto.
Qed.

(** Three rejected requests in a row, from a store with no session. *)
Example three_failures :
  let log := log_of (handleSendMessage coffee_query initial_state offline_world) in
  let url := lit "https://search.example.org/api/v1/search?query=best%20coffee%20near%20me" in
  io log = [Fetch url; Sleep 2000; Fetch url; Sleep 4000; Fetch url] /\
  messages (send_state coffee_query initial_state offline_world) =
    [user_message coffee_query; notice_message] /\
  isLoading (send_state coffee_query initial_state offline_world) = false.
Proof. vm_compute. auto. Qed.

(** C2. One dispatch appends the user message before anything is awaited, and
    exactly one assistant message by the time it settles, whether an attempt
    succeeds or all of them fail. *)
Theorem handleSendMessage_appends q st w :
  exists pre post reply,
    log_of (handleSendMessage q st w) =
      pre ++ SetMessages (append (user_message q)) :: post /\
    io pre = [] /\
    message_writes pre =
      (if Nat.eqb (length (sessions st)) 0 then [value []] else []) /\
    message_writes post = [append reply] /\
    ChatMessage.role reply = assistant /\
    messages (send_state q st w) = buffer_before st ++ [user_message q; reply].
Proof.
  exists (session_log st w),
    (SetIsLoading true :: attempts_io q w
       ++ [SetMessages (append (final_reply q w)); SetIsLoading false]),
    (final_reply q w).
  destruct (session_log_quiet st w) as (_ & Hio & _).
  destruct (attempts_io_quiet q w) as (_ & _ & Hm & _).
  rewrite handleSendMessage_log, send_state_eq. repeat split; auto.
  - unfold session_log. now destruct (Nat.eqb _ _).
  - cbn. now rewrite message_writes_app, Hm.
  - unfold final_reply.
    destruct (settles q w 0), (settles q w 1), (settles q w 2); reflexivity.
Qed.

(** C3. One dispatch writes the loading flag twice: [true] before anything
    is awaited and [false] as its very last effect, right after the reply is
    appended; the flag is false once the dispatch has settled. *)
Theorem handleSendMessage_loading q st w :
  exists pre mid reply,
    log_of (handleSendMessage q st w) =
      pre ++ SetIsLoading true :: mid
        ++ [SetMessages (append reply); SetIsLoading false] /\
    io pre = [] /\
    loading_writes (log_of (handleSendMessage q st w)) = [true; false] /\
    isLoading (send_state q st w) = false.
Proof.
  exists (session_log st w ++ [SetMessages (append (user_message q))]),
    (attempts_io q w), (final_reply q w).
  destruct (session_log_quiet st w) as (_ & Hio & Hl).
  destruct (attempts_io_quiet q w) as (_ & Hl' & _ & _).
  rewrite handleSendMessage_log, send_state_eq. repeat split.
  - rewrite <- app_assoc. reflexivity.
  - rewrite io_app, Hio. reflexivity.
  - rewrite loading_writes_app, Hl. cbn. rewrite loading_writes_app, Hl'.
    reflexivity.
Qed.

(** ** Normalisation *)

Lemma get_not_null data f : data <> JNull -> exists v, get data f = Ok v.
Proof. destruct data; intros H; try congruence; eexists; reflexivity. Qed.

Lemma get_same_shape data f g v : get data f = Ok v -> exists v', get data g = Ok v'.
Proof. destruct data; cbn; intros H; try discriminate; eexists; reflexivity. Qed.

Lemma array_or_empty_array v :
  exists items, array_or_empty v = JArr items.
Proof. destruct v as [[]|]; eexists; reflexivity. Qed.

Lemma array_or_empty_other v : ~ is_array v -> array_or_empty v = JArr [].
Proof.
  destruct v as [[]|]; try reflexivity.
  intros H. exfalso. apply H. eexists. reflexivity.
Qed.

Lemma array_or_empty_defaulted v : defaulted v (array_or_empty v).
Proof.
  split; [|split].
  - now intros items ->.
  - apply array_or_empty_other.
  - apply array_or_empty_array.
Qed.

(** A body that is JSON [null] is no counterexample to the defaulting of the
    fields, but it does produce an error: every attempt that receives it
    throws, and the dispatch ends with the connectivity notice. *)
Lemma null_body_is_an_error :
  let w := with_upstream (fun _ => Response 200 (Some JNull)) offline_world in
  ~ (exists sd, safeData JNull coffee_query = Ok sd) /\
  fst (fst (try_block coffee_query w)) = Throw /\
  messages (send_state coffee_query initial_state w) =
    [user_message coffee_query; notice_message].
Proof.
  cbv zeta. split; [|split].
  - intros [sd H]. discriminate H.
  - vm_compute. reflexivity.
  - vm_compute. reflexivity.
Qed.

(** C4 (as amended). For a body other than JSON [null], normalisation never
    throws and each of the four array fields is the upstream array when the
    body has one there and the empty array otherwise, so it is always an
    array; a [null] body throws. *)
Theorem safeData_defaults data q :
  data <> JNull ->
  safeData JNull q = Throw /\
  exists sd o r s l,
    safeData data q = Ok sd /\
    get data OrganicResults = Ok o /\
    get data RelatedQuestions = Ok r /\
    get data RelatedSearches = Ok s /\
    get data LocalResults = Ok l /\
    defaulted o (SafeData.organic_results sd) /\
    defaulted r (SafeData.related_questions sd) /\
    defaulted s (SafeData.related_searches sd) /\
    defaulted l (SafeData.local_results sd).
Proof.
  intros not_null. split; [reflexivity|].
  unfold safeData.
  destruct (get_not_null data OrganicResults not_null) as [o Ho].
  destruct (get_same_shape data _ KnowledgeGraph _ Ho) as [k Hk].
  destruct (get_same_shape data _ RelatedQuestions _ Ho) as [r Hr].
  destruct (get_same_shape data _ RelatedSearches _ Ho) as [s Hs].
  destruct (get_same_shape data _ AiResponse _ Ho) as [a Ha].
  destruct (get_same_shape data _ LocalResults _ Ho) as [l Hl].
  rewrite Ho, Hk, Hr, Hs, Ha, Hl. cbn.
  eexists _, o, r, s, l. repeat (split; [reflexivity|]).
  cbn. repeat split; try apply array_or_empty_defaulted.
Qed.

Lemma safeData_defaults_witness :
  exists sd,
    safeData coffee_body coffee_query = Ok sd /\
    SafeData.organic_results sd = JArr [coffee_link] /\
    SafeData.related_questions sd = JArr [] /\
    SafeData.related_searches sd = JArr [] /\
    SafeData.local_results sd = JArr [cafe_a].
Proof.
  assert (coffee_body <> JNull) as not_null by discriminate.
  destruct (safeData_defaults coffee_body coffee_query not_null)
    as (_ & sd & o & r & s & l & Hsd & Ho & Hr & Hs & Hl & Do & Dr & Ds & Dl).
  exists sd. split; [exact Hsd|].
  vm_compute in Ho, Hr, Hs, Hl.
  injection Ho as <-. injection Hr as <-. injection Hs as <-. injection Hl as <-.
  destruct Do as (Do & _), Dl as (Dl & _), Dr as (_ & Dr & _), Ds as (_ & Ds & _).
  repeat split.
  - apply Do. reflexivity.
  - apply Dr. intros [items H]. discriminate H.
  - apply Ds. intros [items H]. discriminate H.
  - apply Dl. reflexivity.
Defined.

(** ** The reply to a successful response *)

Lemma safeData_ai_response data q a :
  get data AiResponse = Ok a ->
  exists sd,
    safeData data q = Ok sd /\
    SafeData.ai_response sd = js_or a (JStr (fallback_summary q)) /\
    (forall o, get data OrganicResults = Ok o ->
       SafeData.organic_results sd = array_or_empty o) /\
    (forall r, get data RelatedQuestions = Ok r ->
       SafeData.related_questions sd = array_or_empty r) /\
    (forall s, get data RelatedSearches = Ok s ->
       SafeData.related_searches sd = array_or_empty s) /\
    (forall l, get data LocalResults = Ok l ->
       SafeData.local_results sd = array_or_empty l).
Proof.
  intros Ha. unfold safeData.
  destruct (get_same_shape data _ OrganicResults _ Ha) as [o Ho].
  destruct (get_same_shape data _ KnowledgeGraph _ Ha) as [k ->].
  destruct (get_same_shape data _ RelatedQuestions _ Ha) as [r Hr].
  destruct (get_same_shape data _ RelatedSearches _ Ha) as [s Hs].
  destruct (get_same_shape data _ LocalResults _ Ha) as [l Hl].
  rewrite Ha, Ho, Hr, Hs, Hl. cbn. eexists. repeat split.
  all: intros x [= ->]; reflexivity.
Qed.

Lemma fallback_summary_quoted q : fallback_summary q = quoted_fallback q.
Proof.
  unfold fallback_summary, quoted_fallback, dquote.
  change (lit ("I searched for " ++ String "034" EmptyString))
    with (lit "I searched for " ++ [34%N]).
  change (lit (String "034" " but couldn't generate a good summary."))
    with (34%N :: lit " but couldn't generate a good summary.").
  now rewrite <- !app_assoc.
Qed.

Lemma falsy_truthy v : falsy v <-> truthy v = false.
Proof.
  split.
  - intros []; reflexivity.
  - destruct v as [|[]|[]|[]| |]; cbn; try discriminate; intros _; constructor.
Qed.

(** An attempt whose request is answered with a success status and a body
    that normalises to [sd] appends [assistant_reply sd]; when it is the first
    attempt of a dispatch, that is the reply the dispatch ends with. *)
Lemma successful_attempt q w status data encoded sd :
  encodeURIComponent q = Ok encoded ->
  upstream w (requests w) = Response status (Some data) ->
  response_ok status = true ->
  safeData data q = Ok sd ->
  log_of (try_block q w) =
    [Fetch (search_url (NEXT_PUBLIC_API_URL w) encoded);
     SetMessages (append (assistant_reply sd))] /\
  forall st,
    messages (send_state q st w) =
      buffer_before st ++ [user_message q; assistant_reply sd].
Proof.
  intros Henc Hup Hok Hsd.
  assert (attempt_result q (upstream w (requests w)) = Ok sd) as Hres.
  { unfold attempt_result. now rewrite Henc, Hup, Hok. }
  split.
  - rewrite try_block_run, Hres. unfold log_of, request_log. cbn.
    now rewrite Henc.
  - intros st. rewrite send_state_eq. cbn [messages].
    unfold final_reply. now rewrite <- settles_first, Hres.
Qed.

(** C5. When a successful body has no [ai_response], the content of the
    assistant message appended is the sentence of the specification around
    the query, whatever the query, and its results are the normalised object,
    each array field being the upstream array or the empty one; for the query
    "best coffee near me" the content is the quoted sentence. *)
Theorem fallback_when_ai_response_absent q w status data encoded :
  encodeURIComponent q = Ok encoded ->
  upstream w (requests w) = Response status (Some data) ->
  response_ok status = true ->
  get data AiResponse = Ok None ->
  exists sd,
    safeData data q = Ok sd /\
    SafeData.ai_response sd = JStr (quoted_fallback q) /\
    log_of (try_block q w) =
      [Fetch (search_url (NEXT_PUBLIC_API_URL w) encoded);
       SetMessages (append (fallback_reply q sd))] /\
    (forall st,
       messages (send_state q st w) =
         buffer_before st ++ [user_message q; fallback_reply q sd]) /\
    (forall o, get data OrganicResults = Ok o ->
       defaulted o (SafeData.organic_results sd)) /\
    (forall r, get data RelatedQuestions = Ok r ->
       defaulted r (SafeData.related_questions sd)) /\
    (forall s, get data RelatedSearches = Ok s ->
       defaulted s (SafeData.related_searches sd)) /\
    (forall l, get data LocalResults = Ok l ->
       defaulted l (SafeData.local_results sd)) /\
    quoted_fallback coffee_query = coffee_summary.
Proof.
  intros Henc Hup Hok Ha.
  destruct (safeData_ai_response data q None Ha)
    as (sd & Hsd & Hai & Ho & Hr & Hs & Hl).
  destruct (successful_attempt q w status data encoded sd Henc Hup Hok Hsd)
    as [Hlog Hst].
  cbn [js_or] in Hai. rewrite fallback_summary_quoted in Hai.
  assert (assistant_reply sd = fallback_reply q sd) as Hreply.
  { unfold assistant_reply, fallback_reply. now rewrite Hai. }
  rewrite Hreply in Hlog. setoid_rewrite Hreply in Hst.
  exists sd. repeat (split; [assumption|]).
  split; [|split; [|split; [|split; [|reflexivity]]]].
  - intros o Hget. rewrite (Ho _ Hget). apply array_or_empty_defaulted.
  - intros r Hget. rewrite (Hr _ Hget). apply array_or_empty_defaulted.
  - intros s Hget. rewrite (Hs _ Hget). apply array_or_empty_defaulted.
  - intros l Hget. rewrite (Hl _ Hget). apply array_or_empty_defaulted.
Qed.

Lemma fallback_when_ai_response_absent_witness :
  let w := with_upstream (fun _ => Response 200 (Some coffee_body)) offline_world in
  exists sd places,
    messages (send_state coffee_query initial_state w) =
      [user_message coffee_query;
       ChatMessage.mk assistant (JStr coffee_summary) (Some sd)] /\
    SafeData.local_results sd = JArr places /\
    length places = 1.
Proof.
  cbv zeta.
  destruct (fallback_when_ai_response_absent coffee_query
              (with_upstream (fun _ => Response 200 (Some coffee_body)) offline_world)
              200 coffee_body
              (lit "best%20coffee%20near%20me"))
    as (sd & _ & _ & _ & Hst & _ & _ & _ & Hl & Hsummary).
  - vm_compute. reflexivity.
  - reflexivity.
  - reflexivity.
  - vm_compute. reflexivity.
  - exists sd, [cafe_a]. split; [|split].
    + rewrite (Hst initial_state). unfold fallback_reply.
      rewrite Hsummary. reflexivity.
    + destruct (Hl (Some (JArr [cafe_a]))) as (Harr & _).
      * vm_compute. reflexivity.
      * now apply Harr.
    + reflexivity.
Defined.

(** C10. Truthiness decides.  When a successful body has an [ai_response]
    that is falsy (the empty string, [null], [false], a zero, not-a-number),
    the content of the assistant message appended is the sentence of the
    specification around the query, not the value received; when the value is
    anything else, the content is that value. *)
Theorem fallback_when_ai_response_falsy q w status data encoded v :
  encodeURIComponent q = Ok encoded ->
  upstream w (requests w) = Response status (Some data) ->
  response_ok status = true ->
  get data AiResponse = Ok (Some v) ->
  exists sd,
    safeData data q = Ok sd /\
    (falsy v ->
       SafeData.ai_response sd = JStr (quoted_fallback q) /\
       log_of (try_block q w) =
         [Fetch (search_url (NEXT_PUBLIC_API_URL w) encoded);
          SetMessages (append (fallback_reply q sd))] /\
       forall st,
         messages (send_state q st w) =
           buffer_before st ++ [user_message q; fallback_reply q sd]) /\
    (~ falsy v ->
       SafeData.ai_response sd = v /\
       log_of (try_block q w) =
         [Fetch (search_url (NEXT_PUBLIC_API_URL w) encoded);
          SetMessages (append (ChatMessage.mk assistant v (Some sd)))] /\
       forall st,
         messages (send_state q st w) =
           buffer_before st
             ++ [user_message q; ChatMessage.mk assistant v (Some sd)]).
Proof.
  intros Henc Hup Hok Ha.
  destruct (safeData_ai_response data q (Some v) Ha) as (sd & Hsd & Hai & _).
  destruct (successful_attempt q w status data encoded sd Henc Hup Hok Hsd)
    as [Hlog Hst].
  exists sd. split; [exact Hsd|]. cbn [js_or] in Hai.
  split; intros Hv.
  - apply falsy_truthy in Hv. rewrite Hv, fallback_summary_quoted in Hai.
    assert (assistant_reply sd = fallback_reply q sd) as Hreply.
    { unfold assistant_reply, fallback_reply. now rewrite Hai. }
    rewrite Hreply in Hlog. setoid_rewrite Hreply in Hst. auto.
  - assert (truthy v = true) as Htrue.
    { destruct (truthy v) eqn:Ht; [reflexivity|].
      now apply falsy_truthy in Ht. }
    rewrite Htrue in Hai.
    assert (assistant_reply sd = ChatMessage.mk assistant v (Some sd)) as Hreply.
    { unfold assistant_reply. now rewrite Hai. }
    rewrite Hreply in Hlog. setoid_rewrite Hreply in Hst. auto.
Qed.

Lemma fallback_when_ai_response_falsy_witness :
  let empty := JObj (<[lit "ai_response" := JStr []]> ∅) in
  let summary := JObj (<[lit "ai_response" := JStr (lit "Try Cafe A.")]> ∅) in
  let answering body := with_upstream (fun _ => Response 200 (Some body)) offline_world in
  (exists sd,
     messages (send_state coffee_query initial_state (answering empty)) =
       [user_message coffee_query;
        ChatMessage.mk assistant (JStr coffee_summary) (Some sd)]) /\
  (exists sd,
     messages (send_state coffee_query initial_state (answering summary)) =
       [user_message coffee_query;
        ChatMessage.mk assistant (JStr (lit "Try Cafe A.")) (Some sd)]).
Proof.
  cbv zeta. split.
  - destruct (fallback_when_ai_response_falsy coffee_query
                (with_upstream
                   (fun _ => Response 200
                               (Some (JObj (<[lit "ai_response" := JStr []]> ∅))))
                   offline_world)
                200 (JObj (<[lit "ai_response" := JStr []]> ∅))
                (lit "best%20coffee%20near%20me") (JStr []))
      as (sd & _ & Hfalsy & _).
    + vm_compute. reflexivity.
    + reflexivity.
    + reflexivity.
    + vm_compute. reflexivity.
    + destruct (Hfalsy falsy_empty) as (_ & _ & Hst).
      exists sd. rewrite (Hst initial_state). reflexivity.
  - destruct (fallback_when_ai_response_falsy coffee_query
                (with_upstream
                   (fun _ => Response 200
                               (Some (JObj (<[lit "ai_response" :=
                                                JStr (lit "Try Cafe A.")]> ∅))))
                   offline_world)
                200 (JObj (<[lit "ai_response" := JStr (lit "Try Cafe A.")]> ∅))
                (lit "best%20coffee%20near%20me") (JStr (lit "Try Cafe A.")))
      as (sd & _ & _ & Htruthy).
    + vm_compute. reflexivity.
    + reflexivity.
    + reflexivity.
    + vm_compute. reflexivity.
    + destruct Htruthy as (_ & _ & Hst).
      * intros Hv. inversion Hv.
      * exists sd. rewrite (Hst initial_state). reflexivity.
Defined.

(** ** Titles *)

(** C6. The title is the first user message itself when that has at most 30
    characters, and its first 30 characters followed by "..." when it has
    more. *)
Theorem getChatTitle_first_user_message msgs m c :
  List.find (fun m => Role_eqb (ChatMessage.role m) user) msgs = Some m ->
  ChatMessage.content m = JStr c ->
  (length c <= 30 -> getChatTitle msgs = Some c) /\
  (30 < length c -> getChatTitle msgs = Some (take 30 c ++ lit "...")).
Proof.
  intros Hfind Hcontent. unfold getChatTitle, slice0.
  rewrite Hfind, Hcontent. split; intros Hlen.
  - rewrite take_ge by lia.
    destruct (Nat.ltb_spec (length c) (length c)); [lia|reflexivity].
  - rewrite length_take, Nat.min_l by lia.
    destruct (Nat.ltb_spec 30 (length c)); [reflexivity|lia].
Qed.

Lemma getChatTitle_first_user_message_witness :
  getChatTitle [notice_message; user_message coffee_query] = Some coffee_query /\
  getChatTitle [user_message (lit "where can I find the best coffee near me")]
    = Some (lit "where can I find the best coff...").
Proof.
  split.
  - apply (getChatTitle_first_user_message
             [notice_message; user_message coffee_query]
             (user_message coffee_query) coffee_query); [reflexivity..|].
    vm_compute. lia.
  - apply (getChatTitle_first_user_message
             [user_message (lit "where can I find the best coffee near me")]
             (user_message (lit "where can I find the best coffee near me"))
             (lit "where can I find the best coffee near me"));
      [reflexivity..|].
    vm_compute. lia.
Defined.

(** ** The in-place sort *)

Lemma sort_insert_perm {A} (compare : A -> A -> Z) x l :
  Permutation (x :: l) (sort_insert compare x l).
Proof.
  induction l as [|y l IH]; cbn; [reflexivity|].
  destruct (compare x y <=? 0)%Z; [reflexivity|].
  rewrite perm_swap. now apply perm_skip.
Qed.

Lemma sorted_by_perm {A} (compare : A -> A -> Z) l :
  Permutation l (sorted_by compare l).
Proof.
  induction l as [|x l IH]; cbn; [reflexivity|].
  rewrite <- sort_insert_perm. now apply perm_skip.
Qed.

Lemma sort_insert_sorted x l :
  StronglySorted newer_first l ->
  StronglySorted newer_first (sort_insert by_updatedAt_desc x l).
Proof.
  induction 1 as [|y l Hsorted IH Hall]; cbn.
  - repeat constructor.
  - unfold by_updatedAt_desc at 1.
    destruct (Z.leb_spec (ChatSession.updatedAt y - ChatSession.updatedAt x) 0).
    + constructor; [now constructor|].
      constructor; [unfold newer_first; lia|].
      eapply Forall_impl; [exact Hall|].
      unfold newer_first. intros z Hz. lia.
    + constructor; [exact IH|].
      eapply Permutation_Forall; [apply sort_insert_perm|].
      constructor; [unfold newer_first; lia|exact Hall].
Qed.

Lemma sorted_by_sorted l :
  StronglySorted newer_first (sorted_by by_updatedAt_desc l).
Proof.
  induction l as [|x l IH]; cbn; [constructor|now apply sort_insert_sorted].
Qed.

Lemma sorted_by_head first others :
  exists mostRecent rest,
    sorted_by by_updatedAt_desc (first :: others) = mostRecent :: rest /\
    forall x, x ∈ first :: others -> newer_first mostRecent x.
Proof.
  pose proof (sorted_by_sorted (first :: others)) as Hsorted.
  pose proof (sorted_by_perm by_updatedAt_desc (first :: others)) as Hperm.
  destruct (sorted_by by_updatedAt_desc (first :: others)) as [|m rest].
  { apply Permutation_sym, Permutation_nil in Hperm. discriminate. }
  exists m, rest. split; [reflexivity|].
  intros x Hx. rewrite Hperm in Hx.
  apply StronglySorted_inv in Hsorted as [_ Hall].
  apply elem_of_cons in Hx as [->|Hx].
  - unfold newer_first. lia.
  - rewrite Forall_forall in Hall. apply Hall, Hx.
Qed.

(** ** Mounting *)

Lemma deref_sorted compare w parsed :
  deref
    (with_heap (<[length (heap w) := sorted_by compare parsed]> (heap w ++ [parsed])) w)
    (length (heap w)) = sorted_by compare parsed.
Proof.
  unfold deref, with_heap. cbn.
  rewrite list_lookup_insert_eq; [reflexivity|].
  rewrite length_app. cbn. lia.
Qed.

Lemma deref_new w parsed :
  deref (with_heap (heap w ++ [parsed]) w) (length (heap w)) = parsed.
Proof.
  unfold deref, with_heap. cbn.
  now rewrite list_lookup_middle.
Qed.

Lemma initialize_nothing_stored w :
  fst (fst (initialize (with_item NoItem w))) = Ok tt /\
  fst (snd (initialize (with_item NoItem w))) =
    mkState [fresh_session w] (Some (ChatSession.id (fresh_session w))) [] false.
Proof.
  split; [reflexivity|].
  unfold initialize, dispatch, load_sessions, bind, localStorage_getItem.
  cbn [chat_sessions_item with_item fst snd]. rewrite createNewSession_run.
  unfold ret. cbv beta iota. cbn [fst snd app].
  exact (f_equal fst (commit_new_session (fresh_session w) initial_state _)).
Qed.

Lemma initialize_without_sessions item w :
  item = NoItem \/ item = EmptyText ->
  fst (fst (initialize (with_item item w))) = Ok tt /\
  snd (initialize (with_item item w)) =
    (mkState [fresh_session w] (Some (ChatSession.id (fresh_session w))) [] false,
     after_new_session (with_item item w)).
Proof.
  intros [-> | ->]; (split; [reflexivity|]);
    unfold initialize, dispatch, load_sessions, bind, localStorage_getItem;
    cbn [chat_sessions_item with_item fst snd]; rewrite createNewSession_run;
    unfold ret; cbv beta iota; cbn [fst snd app];
    exact (commit_new_session (fresh_session w) initial_state _).
Qed.

Lemma load_sessions_stored w first others mostRecent rest :
  sorted_by by_updatedAt_desc (first :: others) = mostRecent :: rest ->
  load_sessions (with_item (SessionsJson (first :: others)) w) =
  (Ok tt,
   [SetSessions (fun _ => read_array (length (heap w)));
    SetActiveSessionId (Some (ChatSession.id mostRecent));
    SetMessages (value (ChatSession.messages mostRecent))],
   with_heap (<[length (heap w) := mostRecent :: rest]> (heap w ++ [first :: others]))
     (with_item (SessionsJson (first :: others)) w)).
Proof.
  intros Hsorted.
  unfold load_sessions, bind, localStorage_getItem, new_array, setSessions, emit,
    read_array, sort_array, deref.
  cbn -[sorted_by].
  repeat (rewrite list_lookup_middle by reflexivity; cbn -[sorted_by]).
  rewrite Hsorted.
  rewrite list_lookup_insert_eq by (rewrite length_app; cbn; lia).
  reflexivity.
Qed.

Lemma initialize_stored w first others :
  exists mostRecent rest,
    sorted_by by_updatedAt_desc (first :: others) = mostRecent :: rest /\
    fst (fst (initialize (with_item (SessionsJson (first :: others)) w))) = Ok tt /\
    snd (initialize (with_item (SessionsJson (first :: others)) w)) =
      (mkState (mostRecent :: rest) (Some (ChatSession.id mostRecent))
         (ChatSession.messages mostRecent) false,
       with_heap
         (<[length (heap w) := mostRecent :: rest]> (heap w ++ [first :: others]))
         (with_item (SessionsJson (first :: others)) w)).
Proof.
  destruct (sorted_by_head first others) as (m & rest & Hsorted & _).
  exists m, rest. split; [exact Hsorted|].
  unfold initialize, dispatch. cbn [fst snd].
  rewrite (load_sessions_stored w first others m rest Hsorted).
  split; [reflexivity|].
  cbn. unfold deref. cbn.
  rewrite list_lookup_insert_eq by (rewrite length_app; cbn; lia).
  now destruct (fiber_idle w).
Qed.

Lemma load_sessions_empty_array w :
  load_sessions (with_item (SessionsJson []) w) =
  (Ok tt,
   [SetSessions (fun _ => read_array (length (heap w)));
    SetSessions (fun prev => ret (fresh_session w :: prev));
    SetActiveSessionId (Some (ChatSession.id (fresh_session w)));
    SetMessages (value [])],
   after_new_session (with_heap (heap w ++ [[]]) (with_item (SessionsJson []) w))).
Proof.
  unfold load_sessions, bind, localStorage_getItem, new_array, setSessions, emit,
    read_array, deref.
  cbn. rewrite list_lookup_middle by reflexivity. reflexivity.
Qed.

Lemma initialize_empty_array w :
  fst (fst (initialize (with_item (SessionsJson []) w))) = Ok tt /\
  snd (initialize (with_item (SessionsJson []) w)) =
    (mkState [fresh_session w] (Some (ChatSession.id (fresh_session w))) [] false,
     after_new_session
       (with_heap (heap w ++ [[]]) (with_item (SessionsJson []) w))).
Proof.
  unfold initialize, dispatch. cbn [fst snd]. rewrite load_sessions_empty_array.
  cbn [fst snd]. split; [reflexivity|].
  change (commit (?e :: ?l) ?s) with (commit l (apply_effect e s)).
  rewrite (apply_plain_update _ initial_state _ [] _) by
    (unfold read_array, deref; cbn; now rewrite list_lookup_middle).
  apply (commit_new_session (fresh_session w) (mkState [] None [] false)).
Qed.

(** The stored order is not kept: the array handed to [setSessions] is the
    one that [sort] reorders. *)
Lemma initialize_reorders_stored_sessions :
  let stored := [older_session; newer_session] in
  let st := fst (snd (initialize (with_item (SessionsJson stored) offline_world))) in
  sessions st = [newer_session; older_session] /\ sessions st <> stored.
Proof. cbv zeta. split; [vm_compute; reflexivity|]. vm_compute. discriminate. Qed.

(** C8 (as amended). With nothing stored, mounting creates one session and
    makes it active.  With a non-empty stored list, the session with the
    greatest [updatedAt] becomes active and its messages become the buffer;
    the list the store holds has the stored sessions, most recently updated
    first, because the sort that finds that session reorders the stored
    array itself. *)
Theorem initialize_activates_most_recent w first others :
  (fst (fst (initialize (with_item NoItem w))) = Ok tt /\
   fst (snd (initialize (with_item NoItem w))) =
     mkState [fresh_session w] (Some (ChatSession.id (fresh_session w))) [] false) /\
  exists mostRecent rest,
    fst (fst (initialize (with_item (SessionsJson (first :: others)) w))) = Ok tt /\
    fst (snd (initialize (with_item (SessionsJson (first :: others)) w))) =
      mkState (mostRecent :: rest) (Some (ChatSession.id mostRecent))
        (ChatSession.messages mostRecent) false /\
    mostRecent ∈ first :: others /\
    (forall x, x ∈ first :: others ->
       (ChatSession.updatedAt x <= ChatSession.updatedAt mostRecent)%Z) /\
    Permutation (first :: others) (mostRecent :: rest) /\
    StronglySorted newer_first (mostRecent :: rest).
Proof.
  split; [apply initialize_nothing_stored|].
  destruct (initialize_stored w first others) as (m & rest & Hsorted & Hok & Hst).
  destruct (sorted_by_head first others) as (m' & rest' & Hsorted' & Hmax).
  rewrite Hsorted in Hsorted'. injection Hsorted' as <- <-.
  pose proof (sorted_by_perm by_updatedAt_desc (first :: others)) as Hperm.
  pose proof (sorted_by_sorted (first :: others)) as Hstrong.
  rewrite Hsorted in Hperm, Hstrong.
  exists m, rest. repeat split; auto.
  - now rewrite Hst.
  - rewrite Hperm. apply elem_of_cons. now left.
Qed.

(** ** Creating and deleting sessions *)

Lemma perform_create st w :
  perform CreateSession (st, w) =
  (mkState (fresh_session w :: sessions st)
     (Some (ChatSession.id (fresh_session w))) [] (isLoading st),
   after_new_session w).
Proof.
  unfold perform, dispatch, handler. cbn [fst snd]. rewrite createNewSession_run.
  cbn [fst snd]. apply commit_new_session.
Qed.

(** What [deleteSession] leaves.  Only when the last session goes does it
    matter when React runs the function: run while rendering, the new session
    is added to the emptied list; run inside the [setSessions] call, the new
    session is queued first and the emptied list replaces it. *)
Lemma perform_delete sessionId st w :
  perform (DeleteSession sessionId) (st, w) =
  let remaining := filter (fun s => ChatSession.id s <> sessionId) (sessions st) in
  if decide (activeSessionId st = Some sessionId) then
    match remaining with
    | nextSession :: _ =>
        (mkState remaining (Some (ChatSession.id nextSession))
           (ChatSession.messages nextSession) (isLoading st), w)
    | [] =>
        (mkState (if fiber_idle w then [] else [fresh_session w])
           (Some (ChatSession.id (fresh_session w))) [] (isLoading st),
         after_new_session w)
    end
  else (mkState remaining (activeSessionId st) (messages st) (isLoading st), w).
Proof.
  unfold perform, dispatch, handler, deleteSession, setSessions, emit.
  cbn [fst snd commit apply_effect]. unfold bind.
  destruct (decide (activeSessionId st = Some sessionId)).
  - destruct (filter _ (sessions st)) as [|nextSession rest].
    + rewrite createNewSession_run. cbv beta iota. unfold ret.
      cbn [app fst snd after_new_session fiber_idle].
      destruct (fiber_idle w);
        rewrite (apply_plain_update _ _ _ _ _ eq_refl); reflexivity.
    + cbn. destruct (fiber_idle w); reflexivity.
  - cbn. destruct (fiber_idle w); reflexivity.
Qed.

Lemma no_match l a :
  a ∉ (ChatSession.id <$> l) -> filter (fun s => ChatSession.id s = a) l = [].
Proof.
  induction l as [|x l IH]; [reflexivity|].
  rewrite fmap_cons, not_elem_of_cons. intros [Hx Hl].
  rewrite filter_cons_False by congruence. auto.
Qed.

Lemma one_match l a :
  NoDup (ChatSession.id <$> l) -> a ∈ (ChatSession.id <$> l) ->
  length (filter (fun s => ChatSession.id s = a) l) = 1.
Proof.
  induction l as [|x l IH]; [intros _ H; now apply elem_of_nil in H|].
  rewrite fmap_cons, NoDup_cons, elem_of_cons. intros [Hx Hl] Ha.
  destruct (decide (ChatSession.id x = a)) as [<-|Hne].
  - rewrite filter_cons_True by reflexivity. now rewrite no_match.
  - rewrite filter_cons_False by assumption.
    destruct Ha as [->|Ha]; [congruence|auto].
Qed.

Lemma NoDup_ids_filter (P : ChatSession.t -> Prop) `{forall x, Decision (P x)} l :
  NoDup (ChatSession.id <$> l) -> NoDup (ChatSession.id <$> filter P l).
Proof.
  induction l as [|x l IH]; [intros; constructor|].
  rewrite fmap_cons, NoDup_cons. intros [Hx Hl].
  rewrite filter_cons. destruct (decide (P x)); [|auto].
  rewrite fmap_cons, NoDup_cons. split; [|auto].
  intros Hin. apply Hx.
  apply list_elem_of_fmap in Hin as (y & Hy & Hin).
  apply list_elem_of_filter in Hin as [_ Hin].
  apply list_elem_of_fmap. eauto.
Qed.

Lemma id_survives_filter a sessionId (l : list ChatSession.t) :
  a <> sessionId -> a ∈ (ChatSession.id <$> l) ->
  a ∈ (ChatSession.id <$> filter (fun s => ChatSession.id s <> sessionId) l).
Proof.
  intros Hne Hin. apply list_elem_of_fmap in Hin as (x & -> & Hx).
  apply list_elem_of_fmap. exists x. split; [reflexivity|].
  now apply list_elem_of_filter.
Qed.

(** The active id stays named, whatever ids are generated. *)
Lemma active_named_perform op st w :
  active_named st -> active_named (fst (perform op (st, w))).
Proof.
  intros (a & Ha & Hin). destruct op as [|sessionId].
  - rewrite perform_create. eexists. split; [reflexivity|]. right.
    cbn [fst sessions]. rewrite fmap_cons. apply list_elem_of_here.
  - rewrite perform_delete. cbv zeta.
    destruct (decide (activeSessionId st = Some sessionId)) as [Hactive|Hother].
    + destruct (filter _ (sessions st)) as [|nextSession rest].
      * eexists. split; [reflexivity|]. cbn [fst sessions].
        destruct (fiber_idle w); [now left|right].
        rewrite fmap_cons. apply list_elem_of_here.
      * eexists. split; [reflexivity|]. right.
        cbn [fst sessions]. rewrite fmap_cons. apply list_elem_of_here.
    + exists a. split; [exact Ha|]. cbn [fst sessions].
      destruct Hin as [Hnil|Hin]; [left; now rewrite Hnil|right].
      apply id_survives_filter; congruence.
Qed.

Lemma active_named_in_list st : active_named st -> active_in_list st.
Proof.
  intros (a & Ha & [Hnil|Hin]) Hne; [contradiction|].
  apply list_elem_of_fmap in Hin as (x & -> & Hx). eauto.
Qed.

Lemma named_exactly_one st :
  NoDup (ChatSession.id <$> sessions st) -> active_named st ->
  sessions st <> [] -> exactly_one_active st.
Proof.
  intros Hnodup (a & Ha & [Hnil|Hin]) Hne; [contradiction|].
  exists a. split; [exact Ha|]. now apply one_match.
Qed.

Lemma invariant_one w0 s :
  store_invariant w0 s -> sessions (fst s) <> [] -> exactly_one_active (fst s).
Proof. intros (Hnamed & Hnodup & _) Hne. now apply named_exactly_one. Qed.

Lemma invariant_active w0 s : store_invariant w0 s -> active_in_list (fst s).
Proof. intros (Hnamed & _). now apply active_named_in_list. Qed.

Lemma invariant_idle w0 idle s :
  store_invariant w0 s -> store_invariant w0 (fst s, with_fiber_idle idle (snd s)).
Proof. intros H. exact H. Qed.

Lemma invariant_perform w0 op s :
  (forall i j, random_ids w0 i = random_ids w0 j -> i = j) ->
  store_invariant w0 s -> store_invariant w0 (perform op s).
Proof.
  intros Hinj. destruct s as [st w].
  intros (Hnamed & Hnodup & Hids & Hfresh).
  split; [now apply active_named_perform|].
  cbn [fst snd] in *. clear Hnamed.
  destruct op as [|sessionId].
  - rewrite perform_create.
    cbn [fst snd sessions after_new_session random_ids ids_drawn].
    split; [|split].
    + rewrite fmap_cons, NoDup_cons. split; [|exact Hnodup].
      intros Hdup. apply list_elem_of_fmap in Hdup as (x & Hx & Hxin).
      apply (Hfresh x (ids_drawn w) Hxin); [lia|].
      rewrite <- Hx. cbn. now rewrite Hids.
    + exact Hids.
    + intros x k Hx Hk. apply elem_of_cons in Hx as [->|Hx].
      * cbn. rewrite Hids. intros Heq. apply Hinj in Heq. lia.
      * apply Hfresh; [exact Hx|lia].
  - rewrite perform_delete. cbv zeta.
    assert (forall x k,
              x ∈ filter (fun s => ChatSession.id s <> sessionId) (sessions st) ->
              ids_drawn w <= k -> ChatSession.id x <> random_ids w0 k) as Hfresh'.
    { intros x k Hx Hk. apply Hfresh; [|exact Hk].
      now apply list_elem_of_filter in Hx as [_ Hx]. }
    pose proof (NoDup_ids_filter (fun s => ChatSession.id s <> sessionId) _ Hnodup)
      as Hnodup'.
    destruct (decide (activeSessionId st = Some sessionId)) as [Hactive|Hother].
    + destruct (filter _ (sessions st)) as [|nextSession rest] eqn:Hrem.
      * cbn [fst snd sessions after_new_session random_ids ids_drawn].
        split; [|split; [exact Hids|]].
        -- destruct (fiber_idle w); repeat constructor. apply not_elem_of_nil.
        -- intros x k Hx Hk. destruct (fiber_idle w).
           ++ now apply elem_of_nil in Hx.
           ++ apply list_elem_of_singleton in Hx as ->.
              cbn. rewrite Hids. intros Heq. apply Hinj in Heq. lia.
      * cbn [fst snd sessions]. auto.
    + cbn [fst snd sessions]. auto.
Qed.



Lemma world_item w : w = with_item (chat_sessions_item w) w.
Proof. now destruct w. Qed.

(** What a mount that does not throw leaves: a list that is not empty, with
    its first session active. *)
Lemma initialize_first_active w :
  fst (fst (initialize w)) = Ok tt ->
  exists x rest,
    sessions (fst (snd (initialize w))) = x :: rest /\
    activeSessionId (fst (snd (initialize w))) = Some (ChatSession.id x).
Proof.
  intros Hok. pose proof (world_item w) as Hw.
  destruct (chat_sessions_item w) as [| | |[|first others]];
    match type of Hw with _ = ?w' =>
      replace (initialize w) with (initialize w') in * by (f_equal; now symmetry)
    end.
  - destruct (initialize_without_sessions NoItem w) as [_ ->]; [now left|].
    now eexists _, _.
  - destruct (initialize_without_sessions EmptyText w) as [_ ->]; [now right|].
    now eexists _, _.
  - discriminate Hok.
  - destruct (initialize_empty_array w) as [_ ->]. now eexists _, _.
  - destruct (initialize_stored w first others) as (m & rest & _ & _ & ->).
    now eexists _, _.
Qed.

Lemma active_named_initialize w :
  fst (fst (initialize w)) = Ok tt -> active_named (fst (snd (initialize w))).
Proof.
  intros Hok. destruct (initialize_first_active w Hok) as (x & rest & Hl & Ha).
  exists (ChatSession.id x). split; [exact Ha|]. right.
  rewrite Hl, fmap_cons. apply list_elem_of_here.
Qed.

Lemma invariant_initialize w :
  ids_are_unique w ->
  fst (fst (initialize w)) = Ok tt ->
  store_invariant w (snd (initialize w)).
Proof.
  intros [Hinj Hstored] Hok.
  split; [now apply active_named_initialize|].
  assert (forall w',
            random_ids w' = random_ids w -> ids_drawn w' = ids_drawn w ->
            NoDup (ChatSession.id <$> [fresh_session w]) /\
            random_ids (after_new_session w') = random_ids w /\
            forall x k, x ∈ [fresh_session w] -> ids_drawn (after_new_session w') <= k ->
                        ChatSession.id x <> random_ids w k) as Hone.
  { intros w' Hw' Hd'. split; [repeat constructor; apply not_elem_of_nil|].
    split; [exact Hw'|].
    intros x k Hx Hk. apply list_elem_of_singleton in Hx as ->.
    cbn in *. intros Heq. apply Hinj in Heq. lia. }
  pose proof (world_item w) as Hw.
  destruct (chat_sessions_item w) as [| | |parsed] eqn:Hitem;
    match type of Hw with _ = ?w' =>
      replace (initialize w) with (initialize w') in * by (f_equal; now symmetry)
    end.
  - destruct (initialize_without_sessions NoItem w) as [_ ->]; [now left|].
    now apply Hone.
  - destruct (initialize_without_sessions EmptyText w) as [_ ->]; [now right|].
    now apply Hone.
  - discriminate Hok.
  - destruct (Hstored parsed eq_refl) as [Hnodup Hfresh].
    destruct parsed as [|first others].
    + destruct (initialize_empty_array w) as [_ ->]. now apply Hone.
    + destruct (initialize_stored w first others) as (m & rest & Hsorted & _ & ->).
      pose proof (sorted_by_perm by_updatedAt_desc (first :: others)) as Hperm.
      rewrite Hsorted in Hperm.
      cbn [fst snd sessions]. split; [|split].
      * now rewrite <- Hperm.
      * reflexivity.
      * intros x k Hx _. apply Hfresh. now rewrite Hperm.
Qed.

(** As long as React runs the functions while rendering, the list never
    becomes empty. *)
Lemma deferred_perform_nonempty op st w :
  fiber_idle w = false -> active_named st -> sessions st <> [] ->
  sessions (fst (perform op (st, w))) <> [].
Proof.
  intros Hidle (a & Ha & Hin) Hne. destruct op as [|sessionId].
  - rewrite perform_create. discriminate.
  - rewrite perform_delete. cbv zeta. rewrite Hidle.
    destruct (decide (activeSessionId st = Some sessionId)) as [Hactive|Hother].
    + destruct (filter _ (sessions st)); discriminate.
    + cbn [fst sessions]. destruct Hin as [Hnil|Hin]; [contradiction|].
      intros Hnil.
      assert (a ∈ ChatSession.id <$>
                filter (fun s => ChatSession.id s <> sessionId) (sessions st)) as Hin'
        by (apply id_survives_filter; congruence).
      rewrite Hnil in Hin'. now apply elem_of_nil in Hin'.
Qed.


(** On an empty list, creating a session leaves exactly one. *)
Lemma createNewSession_on_empty_list st w :
  sessions st = [] ->
  sessions (fst (perform CreateSession (st, w))) = [fresh_session w].
Proof. intros Hnil. rewrite perform_create. cbn. now rewrite Hnil. Qed.

(** C7. Deleting removes the sessions with the given id.  When the deleted
    session was active and others remain, the first remaining one becomes
    active and its messages become the buffer.  When it was the last one, a
    fresh session is created and made active; the list then holds that one
    session if React ran the function while rendering, but is empty, with the
    active id naming no session, if React ran it inside the [setSessions]
    call, as it does when the component is idle. *)
Theorem deleteSession_reactivates sessionId st w :
  active_in_list st ->
  let remaining := filter (fun s => ChatSession.id s <> sessionId) (sessions st) in
  let st' := fst (perform (DeleteSession sessionId) (st, w)) in
  (forall x, x ∈ remaining <-> x ∈ sessions st /\ ChatSession.id x <> sessionId) /\
  (activeSessionId st <> Some sessionId ->
   st' = mkState remaining (activeSessionId st) (messages st) (isLoading st)) /\
  (activeSessionId st = Some sessionId ->
   forall nextSession rest, remaining = nextSession :: rest ->
   st' = mkState remaining (Some (ChatSession.id nextSession))
           (ChatSession.messages nextSession) (isLoading st)) /\
  (activeSessionId st = Some sessionId -> remaining = [] ->
   st' = mkState (if fiber_idle w then [] else [fresh_session w])
           (Some (ChatSession.id (fresh_session w))) [] (isLoading st)) /\
  (sessions st <> [] -> remaining = [] ->
   length (sessions st') = if fiber_idle w then 0 else 1).
Proof.
  intros Hactive. cbv zeta. rewrite perform_delete. cbv zeta.
  split; [|split; [|split; [|split]]].
  - intros x. rewrite list_elem_of_filter. tauto.
  - intros Hother. now destruct (decide (activeSessionId st = Some sessionId)).
  - intros Hsame nextSession rest Hrem.
    destruct (decide (activeSessionId st = Some sessionId)); [|contradiction].
    now rewrite Hrem.
  - intros Hsame Hrem.
    destruct (decide (activeSessionId st = Some sessionId)); [|contradiction].
    now rewrite Hrem.
  - intros Hne Hrem. destruct (Hactive Hne) as (x & Hx & Hax).
    assert (ChatSession.id x = sessionId) as Hid.
    { destruct (decide (ChatSession.id x = sessionId)) as [|Hdiff]; [assumption|].
      exfalso. eapply filter_nil_not_elem_of; [exact Hrem| |exact Hx].
      exact Hdiff. }
    rewrite Hid in Hax.
    destruct (decide (activeSessionId st = Some sessionId)); [|contradiction].
    rewrite Hrem. cbn [fst sessions]. now destruct (fiber_idle w).
Qed.

(** Deleting the only session while the component is idle leaves no session
    and an active id that names none; with an update pending it leaves the
    new session; with two sessions the other one becomes active. *)
Lemma deleteSession_reactivates_witness :
  let only := mkState [older_session] (Some (ChatSession.id older_session))
                (ChatSession.messages older_session) false in
  let both := mkState [older_session; newer_session]
                (Some (ChatSession.id older_session))
                (ChatSession.messages older_session) false in
  fst (perform (DeleteSession (ChatSession.id older_session)) (only, offline_world)) =
    mkState [] (Some (lit "session" ++ [0%N])) [] false /\
  length (sessions (fst (perform (DeleteSession (ChatSession.id older_session))
                           (only, with_fiber_idle false offline_world)))) = 1 /\
  fst (perform (DeleteSession (ChatSession.id older_session)) (both, offline_world)) =
    mkState [newer_session] (Some (ChatSession.id newer_session)) [] false.
Proof.
  cbv zeta. split; [|split].
  - apply (deleteSession_reactivates (ChatSession.id older_session)
             (mkState [older_session] (Some (ChatSession.id older_session))
                (ChatSession.messages older_session) false) offline_world).
    + intros _. exists older_session. split; [apply list_elem_of_here|reflexivity].
    + reflexivity.
    + reflexivity.
  - apply (deleteSession_reactivates (ChatSession.id older_session)
             (mkState [older_session] (Some (ChatSession.id older_session))
                (ChatSession.messages older_session) false)
             (with_fiber_idle false offline_world)).
    + intros _. exists older_session. split; [apply list_elem_of_here|reflexivity].
    + discriminate.
    + reflexivity.
  - apply (deleteSession_reactivates (ChatSession.id older_session)
             (mkState [older_session; newer_session]
                (Some (ChatSession.id older_session))
                (ChatSession.messages older_session) false) offline_world)
      with (rest := []).
    + intros _. exists older_session. split; [apply list_elem_of_here|reflexivity].
    + reflexivity.
    + reflexivity.
Defined.


Lemma sample_ids_are_unique :
  ids_are_unique
    (with_item (SessionsJson [older_session; newer_session]) offline_world).
Proof.
  split.
  - intros i j Heq. cbn [random_ids with_item offline_world] in Heq.
    apply app_inv_head in Heq.
    injection Heq as Heq. now apply Nat2N.inj.
  - cbn [chat_sessions_item random_ids with_item offline_world].
    intros parsed [= <-]. split.
    + apply NoDup_cons. split.
      * rewrite list_elem_of_singleton. discriminate.
      * apply NoDup_singleton.
    + intros x k Hx.
      apply elem_of_cons in Hx as [->|Hx];
        [|apply list_elem_of_singleton in Hx as ->]; discriminate.
Defined.


(** * More of the hook *)

(** ** Switching *)

Lemma switchSession_run sessionId st w :
  snd (dispatch (switchSession sessionId) (st, w)) =
  match
    List.find (fun s => bool_decide (ChatSession.id s = sessionId)) (sessions st)
  with
  | Some session =>
      (mkState (sessions st) (Some sessionId) (ChatSession.messages session)
         (isLoading st), w)
  | None => (st, w)
  end.
Proof.
  unfold dispatch, switchSession. cbn [fst snd].
  destruct (List.find _ (sessions st)); [reflexivity|]. now destruct st.
Qed.

Lemma find_id_none sessionId l :
  (forall x, x ∈ l -> ChatSession.id x <> sessionId) ->
  List.find (fun s => bool_decide (ChatSession.id s = sessionId)) l = None.
Proof.
  induction l as [|y l IH]; [reflexivity|]. intros Hall. cbn.
  rewrite bool_decide_eq_false_2 by (apply Hall, list_elem_of_here).
  apply IH. intros x Hx. apply Hall. now apply list_elem_of_further.
Qed.

Lemma find_id_first sessionId before x after :
  (forall y, y ∈ before -> ChatSession.id y <> sessionId) ->
  ChatSession.id x = sessionId ->
  List.find (fun s => bool_decide (ChatSession.id s = sessionId))
    (before ++ x :: after) = Some x.
Proof.
  intros Hbefore Hx. induction before as [|y before IH]; cbn.
  - now rewrite bool_decide_eq_true_2.
  - rewrite bool_decide_eq_false_2 by (apply Hbefore, list_elem_of_here).
    apply IH. intros z Hz. apply Hbefore. now apply list_elem_of_further.
Qed.

(** X1. Switching to an id that no session has changes nothing. *)
Theorem switchSession_unknown_id sessionId st w :
  (forall x, x ∈ sessions st -> ChatSession.id x <> sessionId) ->
  snd (dispatch (switchSession sessionId) (st, w)) = (st, w).
Proof.
  intros Hall. now rewrite switchSession_run, find_id_none.
Qed.

Lemma switchSession_unknown_id_witness :
  let st := mkState [older_session; newer_session]
              (Some (ChatSession.id older_session))
              (ChatSession.messages older_session) false in
  snd (dispatch (switchSession (lit "nosuchid")) (st, offline_world)) =
    (st, offline_world).
Proof.
  cbv zeta. apply switchSession_unknown_id.
  intros x Hx. cbn [sessions] in Hx.
  apply elem_of_cons in Hx as [->|Hx];
    [|apply list_elem_of_singleton in Hx as ->]; discriminate.
Defined.

Lemma switchSession_known_id_run sessionId st w before x after :
  sessions st = before ++ x :: after ->
  (forall y, y ∈ before -> ChatSession.id y <> sessionId) ->
  ChatSession.id x = sessionId ->
  snd (dispatch (switchSession sessionId) (st, w)) =
    (mkState (sessions st) (Some sessionId) (ChatSession.messages x) (isLoading st),
     w).
Proof.
  intros Hsplit Hbefore Hx.
  rewrite switchSession_run, Hsplit, find_id_first by assumption.
  reflexivity.
Qed.

(** X2. Switching to an id that some session has makes that id active and
    loads the messages of the first such session; the list and the loading
    flag stay as they are. *)
Theorem switchSession_known_id sessionId st w before x after :
  sessions st = before ++ x :: after ->
  (forall y, y ∈ before -> ChatSession.id y <> sessionId) ->
  ChatSession.id x = sessionId ->
  snd (dispatch (switchSession sessionId) (st, w)) =
    (mkState (sessions st) (Some sessionId) (ChatSession.messages x) (isLoading st),
     w).
Proof. apply switchSession_known_id_run. Qed.

Lemma switchSession_known_id_witness :
  let st := mkState [newer_session; older_session]
              (Some (ChatSession.id newer_session)) [] true in
  snd (dispatch (switchSession (ChatSession.id older_session)) (st, offline_world)) =
    (mkState [newer_session; older_session] (Some (ChatSession.id older_session))
       [user_message coffee_query; notice_message] true,
     offline_world).
Proof.
  cbv zeta.
  apply (switchSession_known_id (ChatSession.id older_session)
           (mkState [newer_session; older_session]
              (Some (ChatSession.id newer_session)) [] true)
           offline_world [newer_session] older_session []).
  - reflexivity.
  - intros y Hy. apply list_elem_of_singleton in Hy as ->. discriminate.
  - reflexivity.
Defined.

(** ** Copying the buffer into a session *)

Lemma updated_session_run sessionId msgs x w :
  match updated_session sessionId msgs x w with
  | (Ok x', _, w') =>
      refreshed sessionId msgs w x x' /\
      random_ids w' = random_ids w /\ ids_drawn w' = ids_drawn w /\
      clock w' = clock w /\ clock_reads w <= clock_reads w'
  | (Throw, _, w') => w' = w
  end.
Proof.
  unfold updated_session, refreshed.
  destruct (decide (ChatSession.id x = sessionId)) as [Hid|Hid].
  - destruct (bool_decide (ChatSession.title x = lit "New Chat") && (0 <? length msgs)).
    + destruct (getChatTitle msgs) as [t|]; cbn; [|reflexivity].
      repeat split; eauto.
    + cbn. repeat split; eauto.
  - cbn. repeat split; auto.
Qed.

Lemma refreshed_later sessionId msgs w w' x x' :
  clock w' = clock w -> clock_reads w <= clock_reads w' ->
  refreshed sessionId msgs w' x x' -> refreshed sessionId msgs w x x'.
Proof.
  unfold refreshed. intros Hclock Hreads.
  destruct (decide (ChatSession.id x = sessionId)); [|auto].
  intros (Hid & Hcreated & Hmsgs & (k & Hk & Hupdated) & Htitle).
  repeat split; auto. exists k. split; [lia|]. now rewrite <- Hclock.
Qed.

Lemma map_sessions_run sessionId msgs l w :
  match map_sessions (updated_session sessionId msgs) l w with
  | (Ok l', _, w') =>
      Forall2 (refreshed sessionId msgs w) l l' /\
      random_ids w' = random_ids w /\ ids_drawn w' = ids_drawn w /\
      clock w' = clock w /\ clock_reads w <= clock_reads w'
  | (Throw, _, _) => True
  end.
Proof.
  revert w. induction l as [|x l IH]; intros w; cbn.
  - repeat split; auto.
  - unfold bind at 1.
    pose proof (updated_session_run sessionId msgs x w) as Hx.
    destruct (updated_session sessionId msgs x w) as [[[x'|] log1] w1]; [|exact I].
    destruct Hx as (Hx & Hids & Hdrawn & Hclock & Hreads).
    unfold bind at 1. specialize (IH w1).
    destruct (map_sessions (updated_session sessionId msgs) l w1)
      as [[[l'|] log2] w2]; [|exact I].
    destruct IH as (Hl & Hids' & Hdrawn' & Hclock' & Hreads').
    cbn. repeat split; try congruence; [|lia].
    constructor; [exact Hx|].
    eapply Forall2_impl; [exact Hl|].
    intros y y'. now apply refreshed_later.
Qed.

Lemma updateSession_run sessionId msgs s s' :
  updateSession sessionId msgs s = Ok s' ->
  Forall2 (refreshed sessionId msgs (snd s)) (sessions (fst s)) (sessions (fst s')) /\
  activeSessionId (fst s') = activeSessionId (fst s) /\
  messages (fst s') = messages (fst s) /\
  isLoading (fst s') = isLoading (fst s) /\
  random_ids (snd s') = random_ids (snd s) /\
  ids_drawn (snd s') = ids_drawn (snd s).
Proof.
  unfold updateSession.
  pose proof (map_sessions_run sessionId msgs (sessions (fst s)) (snd s)) as Hrun.
  destruct (map_sessions _ (sessions (fst s)) (snd s)) as [[[l'|] log] w'];
    [|discriminate].
  intros [= <-]. cbn. destruct Hrun as (Hl & Hids & Hdrawn & _).
  repeat split; auto.
Qed.

(** X3. A successful [updateSession] keeps the ids, the order and the
    creation times of the sessions and leaves alone every session with
    another id; each session with the given id receives the new messages and
    a fresh [updatedAt]; a title other than "New Chat" is never replaced; and
    the active id, the buffer and the loading flag are not touched. *)
Theorem updateSession_touches_one_session sessionId msgs s s' :
  updateSession sessionId msgs s = Ok s' ->
  ChatSession.id <$> sessions (fst s') = ChatSession.id <$> sessions (fst s) /\
  ChatSession.createdAt <$> sessions (fst s') =
    ChatSession.createdAt <$> sessions (fst s) /\
  (forall i x, sessions (fst s) !! i = Some x ->
     exists x', sessions (fst s') !! i = Some x' /\
       (ChatSession.id x <> sessionId -> x' = x) /\
       (ChatSession.id x = sessionId ->
          ChatSession.messages x' = msgs /\
          exists k, clock_reads (snd s) <= k /\
                    ChatSession.updatedAt x' = clock (snd s) k) /\
       (ChatSession.title x <> lit "New Chat" ->
          ChatSession.title x' = ChatSession.title x)) /\
  activeSessionId (fst s') = activeSessionId (fst s) /\
  messages (fst s') = messages (fst s) /\
  isLoading (fst s') = isLoading (fst s).
Proof.
  intros Hrun. apply updateSession_run in Hrun
    as (Hl & Hactive & Hmsgs & Hloading & _).
  assert (forall x x', refreshed sessionId msgs (snd s) x x' ->
            ChatSession.id x' = ChatSession.id x /\
            ChatSession.createdAt x' = ChatSession.createdAt x) as Hkeep.
  { unfold refreshed. intros x x'.
    destruct (decide (ChatSession.id x = sessionId)); [tauto|now intros ->]. }
  repeat split; auto.
  - induction Hl as [|x x' l l' Hx Hl IH]; [reflexivity|].
    cbn. rewrite IH. f_equal. now apply Hkeep.
  - induction Hl as [|x x' l l' Hx Hl IH]; [reflexivity|].
    cbn. rewrite IH. f_equal. now apply Hkeep.
  - intros i x Hi.
    destruct (Forall2_lookup_l _ _ _ _ _ Hl Hi) as (x' & Hi' & Hx).
    exists x'. split; [exact Hi'|]. unfold refreshed in Hx.
    destruct (decide (ChatSession.id x = sessionId)) as [Hid|Hid].
    + destruct Hx as (_ & _ & Hm & Hk & Htitle). split; [|split].
      * intros Hne. contradiction.
      * intros _. split; [exact Hm|exact Hk].
      * intros Htitled.
        rewrite bool_decide_eq_false_2 in Htitle by assumption. exact Htitle.
    + subst x'. split; [|split].
      * reflexivity.
      * intros Heq. contradiction.
      * reflexivity.
Qed.

Lemma updateSession_touches_one_session_witness :
  let st := mkState [newer_session; older_session]
              (Some (ChatSession.id newer_session))
              [user_message coffee_query] false in
  match
    updateSession (ChatSession.id newer_session) [user_message coffee_query]
      (st, offline_world)
  with
  | Ok s' =>
      ChatSession.id <$> sessions (fst s') =
        [ChatSession.id newer_session; ChatSession.id older_session] /\
      sessions (fst s') !! 1 = Some older_session
  | Throw => False
  end.
Proof.
  cbv zeta.
  destruct (updateSession (ChatSession.id newer_session) [user_message coffee_query]
              (mkState [newer_session; older_session]
                 (Some (ChatSession.id newer_session))
                 [user_message coffee_query] false, offline_world))
    as [s'|] eqn:Hrun.
  - apply updateSession_touches_one_session in Hrun as (Hids & _ & Hlookup & _).
    split; [exact Hids|].
    destruct (Hlookup 1 older_session eq_refl) as (x' & Hx' & Hsame & _).
    rewrite Hx'. f_equal. apply Hsame. discriminate.
  - apply (f_equal is_ok) in Hrun. vm_compute in Hrun. discriminate Hrun.
Defined.

(** ** The effect that copies the buffer *)

Lemma map_sessions_others sessionId msgs l w :
  (forall y, y ∈ l -> ChatSession.id y <> sessionId) ->
  map_sessions (updated_session sessionId msgs) l w = (Ok l, [], w).
Proof.
  intros Hother. induction l as [|y l IH]; [reflexivity|].
  cbn [map_sessions]. unfold bind at 1. unfold updated_session at 1.
  destruct (decide (ChatSession.id y = sessionId)) as [Hid|_].
  { exfalso. apply (Hother y); [apply list_elem_of_here|exact Hid]. }
  cbn. unfold bind at 1.
  rewrite IH by (intros z Hz; apply Hother; now apply list_elem_of_further).
  reflexivity.
Qed.

Lemma map_sessions_skip sessionId msgs before rest w :
  (forall y, y ∈ before -> ChatSession.id y <> sessionId) ->
  map_sessions (updated_session sessionId msgs) (before ++ rest) w =
  match map_sessions (updated_session sessionId msgs) rest w with
  | (Ok rest', log, w') => (Ok (before ++ rest'), log, w')
  | (Throw, log, w') => (Throw, log, w')
  end.
Proof.
  intros Hother. induction before as [|y before IH].
  - cbn [app].
    now destruct (map_sessions (updated_session sessionId msgs) rest w)
      as [[[rest'|] log] w'].
  - cbn [app map_sessions]. unfold bind at 1. unfold updated_session at 1.
    destruct (decide (ChatSession.id y = sessionId)) as [Hid|_].
    { exfalso. apply (Hother y); [apply list_elem_of_here|exact Hid]. }
    cbn. unfold bind at 1.
    rewrite IH by (intros z Hz; apply Hother; now apply list_elem_of_further).
    destruct (map_sessions (updated_session sessionId msgs) rest w)
      as [[[rest'|] log] w']; cbn; rewrite app_nil_r; reflexivity.
Qed.

(** [updateSession] on a list in which one session has the id. *)
Lemma updateSession_unique sessionId msgs st w before x after :
  sessions st = before ++ x :: after ->
  ChatSession.id x = sessionId ->
  (forall y, y ∈ before ++ after -> ChatSession.id y <> sessionId) ->
  updateSession sessionId msgs (st, w) =
  match
    (if bool_decide (ChatSession.title x = lit "New Chat") && (0 <? length msgs)
     then getChatTitle msgs else Some (ChatSession.title x))
  with
  | Some title =>
      Ok (mkState
            (before
               ++ ChatSession.mk sessionId title msgs (ChatSession.createdAt x)
                    (clock w (clock_reads w))
               :: after)
            (activeSessionId st) (messages st) (isLoading st),
          snd (Date_now w))
  | None => Throw
  end.
Proof.
  intros Hsplit Hid Hunique.
  assert (forall y, y ∈ before -> ChatSession.id y <> sessionId) as Hbefore.
  { intros y Hy. apply Hunique, elem_of_app. now left. }
  assert (forall y, y ∈ after -> ChatSession.id y <> sessionId) as Hafter.
  { intros y Hy. apply Hunique, elem_of_app. now right. }
  unfold updateSession. cbn [fst snd].
  rewrite Hsplit, (map_sessions_skip sessionId _ before (x :: after) w Hbefore).
  cbn [map_sessions]. unfold bind at 1. unfold updated_session at 1.
  destruct (decide (ChatSession.id x = sessionId)); [|contradiction].
  destruct (if bool_decide (ChatSession.title x = lit "New Chat")
                 && (0 <? length msgs)
            then getChatTitle msgs else Some (ChatSession.title x)) as [title|];
    [|reflexivity].
  unfold bind at 1. cbn [Date_now ret]. unfold bind at 1.
  match goal with |- context [map_sessions _ after ?w1] =>
    rewrite (map_sessions_others sessionId _ after w1 Hafter) end.
  cbn. now rewrite Hid.
Qed.

Lemma sync_runs a st w :
  activeSessionId st = Some a -> a <> [] -> messages st <> [] ->
  sync_active_session (st, w) = updateSession a (messages st) (st, w).
Proof.
  intros Ha Hne Hm. unfold sync_active_session. cbn [fst]. rewrite Ha.
  destruct a; [contradiction|]. destruct (messages st); [contradiction|reflexivity].
Qed.

Lemma same_store_refl s : same_store s s.
Proof. repeat split. Qed.

Lemma same_store_trans s1 s2 s3 :
  same_store s1 s2 -> same_store s2 s3 -> same_store s1 s3.
Proof.
  intros (Hi & Ha & Hr & Hd) (Hi' & Ha' & Hr' & Hd').
  repeat split; congruence.
Qed.

Lemma refreshed_ids sessionId msgs w l l' :
  Forall2 (refreshed sessionId msgs w) l l' ->
  ChatSession.id <$> l' = ChatSession.id <$> l.
Proof.
  induction 1 as [|x x' l l' Hx Hl IH]; [reflexivity|].
  cbn. rewrite IH. f_equal. unfold refreshed in Hx.
  destruct (decide (ChatSession.id x = sessionId)); [tauto|now subst].
Qed.

Lemma sync_same_store s s' : sync_active_session s = Ok s' -> same_store s s'.
Proof.
  unfold sync_active_session.
  destruct (activeSessionId (fst s)) as [a|]; [|intros [= <-]; apply same_store_refl].
  destruct (negb (Nat.eqb (length a) 0) && (0 <? length (messages (fst s))));
    [|intros [= <-]; apply same_store_refl].
  intros Hrun. apply updateSession_run in Hrun as (Hl & Hactive & _ & _ & Hr & Hd).
  repeat split; auto. eapply refreshed_ids, Hl.
Qed.

Lemma sync_effect_same_store previous same_buffer s s' :
  sync_effect previous same_buffer s = Ok s' -> same_store s s'.
Proof.
  unfold sync_effect.
  destruct (bool_decide _ && same_buffer);
    [intros [= <-]; apply same_store_refl|apply sync_same_store].
Qed.

Lemma sync_effect_same s : sync_effect (fst s) true s = Ok s.
Proof.
  unfold sync_effect. now rewrite bool_decide_eq_true_2 by reflexivity.
Qed.

Lemma sync_effect_replaced previous s :
  sync_effect previous false s = sync_active_session s.
Proof. unfold sync_effect. now rewrite andb_false_r. Qed.
(** ** One dispatch render by render *)

Lemma commit_rendering_setters l rest previous replaced s :
  Forall (fun e => is_await e = false) l ->
  commit_rendering (l ++ rest) previous replaced s =
  commit_rendering rest previous (replaced || existsb is_setMessages l) (commit l s).
Proof.
  intros Hl. revert replaced s.
  induction Hl as [|e l He Hl IH]; intros replaced s.
  - cbn. now rewrite orb_false_r.
  - cbn [app commit_rendering commit existsb]. rewrite He, IH.
    now rewrite orb_assoc.
Qed.

Lemma commit_rendering_awaits l rest s :
  Forall (fun e => is_await e = true) l ->
  commit_rendering (l ++ rest) (fst s) false s = commit_rendering rest (fst s) false s.
Proof.
  induction 1 as [|e l He Hl IH]; [reflexivity|].
  cbn [app commit_rendering negb]. now rewrite He, sync_effect_same.
Qed.

Lemma attempts_io_awaits q w :
  exists e l,
    attempts_io q w = e :: l /\ is_await e = true /\
    Forall (fun e => is_await e = true) l.
Proof.
  unfold attempts_io, request_log, settles, attempt_result.
  destruct (encodeURIComponent q) as [encoded|].
  - destruct (match upstream w (requests w + 0) with
              | Rejected => Throw
              | Response status body => _
              end);
      [|destruct (match upstream w (requests w + 1) with
                  | Rejected => Throw
                  | Response status body => _
                  end)];
      eexists _, _; (split; [reflexivity|]); split; try reflexivity;
      repeat constructor.
  - eexists _, _. split; [reflexivity|]. split; [reflexivity|]. repeat constructor.
Qed.

Lemma session_log_setters st w :
  Forall (fun e => is_await e = false) (session_log st w).
Proof. unfold session_log. destruct (Nat.eqb _ _); repeat constructor. Qed.

Lemma commit_session_log q st w w2 :
  commit (session_log st w
            ++ [SetMessages (append (user_message q)); SetIsLoading true]) (st, w2) =
  (sending_state q st w, w2).
Proof.
  rewrite commit_app. unfold session_log, sending_state, buffer_before.
  destruct (Nat.eqb (length (sessions st)) 0).
  - rewrite commit_new_session. reflexivity.
  - reflexivity.
Qed.

(** A dispatch renders twice: once with the user message in the buffer, once
    with the reply; the effect runs after each. *)
Lemma send_run q st w :
  send q (st, w) =
  match sync_active_session (sending_state q st w, snd (handleSendMessage q st w)) with
  | Ok s1 => sync_active_session (with_reply (final_reply q w) (fst s1), snd s1)
  | Throw => Throw
  end.
Proof.
  unfold send. cbn [fst snd].
  pose proof (handleSendMessage_log q st w) as Hlog. unfold log_of in Hlog.
  destruct (handleSendMessage q st w) as [[u log] w2]. cbn [fst snd] in *.
  subst log.
  destruct (attempts_io_awaits q w) as (e & l & -> & He & Hl).
  change (session_log st w
            ++ SetMessages (append (user_message q)) :: SetIsLoading true
            :: (e :: l) ++ [SetMessages (append (final_reply q w)); SetIsLoading false])
    with (session_log st w
            ++ [SetMessages (append (user_message q)); SetIsLoading true]
            ++ e :: l ++ [SetMessages (append (final_reply q w)); SetIsLoading false]).
  rewrite app_assoc, commit_rendering_setters by
    (apply Forall_app; split; [apply session_log_setters|repeat constructor]).
  rewrite commit_session_log, existsb_app. cbn [existsb is_setMessages].
  rewrite orb_true_r. cbn [orb commit_rendering negb]. rewrite He.
  rewrite sync_effect_replaced.
  destruct (sync_active_session (sending_state q st w, w2)) as [s1|]; [|reflexivity].
  rewrite commit_rendering_awaits by exact Hl.
  cbn [commit_rendering is_await is_setMessages orb negb].
  rewrite sync_effect_replaced. now destruct s1.
Qed.

(** ** The whole hook keeps the active id named *)

Lemma request_made_ids q w :
  random_ids (request_made q w) = random_ids w /\
  ids_drawn (request_made q w) = ids_drawn w.
Proof. unfold request_made. now destruct (encodeURIComponent q). Qed.

Lemma retry_loop_ids q w :
  random_ids (snd (retry_loop q 0 false w)) = random_ids w /\
  ids_drawn (snd (retry_loop q 0 false w)) = ids_drawn w.
Proof.
  pose proof (request_made_ids q w) as [Hr1 Hd1].
  pose proof (request_made_ids q (request_made q w)) as [Hr2 Hd2].
  pose proof (request_made_ids q (request_made q (request_made q w))) as [Hr3 Hd3].
  rewrite retry_loop_attempt by (unfold maxRetries; lia).
  destruct (attempt_result q _); [cbn; auto|].
  rewrite retry_loop_attempt by (unfold maxRetries; lia).
  destruct (attempt_result q _); [cbn; split; congruence|].
  rewrite retry_loop_attempt by (unfold maxRetries; lia).
  destruct (attempt_result q _); [cbn; split; congruence|].
  rewrite retry_loop_exhausted. cbn. split; congruence.
Qed.

Lemma handleSendMessage_world q st w :
  snd (handleSendMessage q st w) = snd (retry_loop q 0 false (session_world st w)).
Proof.
  unfold handleSendMessage, session_world, bind.
  destruct (Nat.eqb (length (sessions st)) 0).
  - rewrite createNewSession_run. cbn.
    now destruct (retry_loop q 0 false (after_new_session w)) as [[u log] w2].
  - cbn. now destruct (retry_loop q 0 false w) as [[u log] w2].
Qed.

(** The first render of a dispatch shows the store that its handler left. *)
Lemma sending_store idle q st w :
  same_store (handler_result idle (SendMessage q) (st, w))
    (sending_state q st (with_fiber_idle idle w),
     snd (handleSendMessage q st (with_fiber_idle idle w))).
Proof.
  unfold handler_result, sending_state. cbn [fst snd].
  rewrite handleSendMessage_world.
  destruct (retry_loop_ids q (session_world st (with_fiber_idle idle w))) as [Hr Hd].
  unfold session_world in *.
  destruct (Nat.eqb (length (sessions st)) 0).
  - rewrite perform_create. repeat split; assumption.
  - repeat split; assumption.
Qed.

(** Every action leaves the store of its handler, up to what the effect
    writes into the sessions. *)
Lemma act_store idle a s s' :
  act idle a s = Ok s' -> same_store (handler_result idle a s) s'.
Proof.
  destruct a as [|sessionId|sessionId same_array|query]; cbn [act handler_result].
  - apply sync_effect_same_store.
  - apply sync_effect_same_store.
  - apply sync_effect_same_store.
  - destruct s as [st w]. cbn [fst snd]. rewrite send_run. intros Hrun.
    eapply same_store_trans; [apply sending_store|].
    destruct (sync_active_session _) as [s1|] eqn:Hfirst; [|discriminate].
    eapply same_store_trans; [exact (sync_same_store _ _ Hfirst)|].
    apply sync_same_store in Hrun. exact Hrun.
Qed.

Lemma find_id_some sessionId l x :
  List.find (fun s => bool_decide (ChatSession.id s = sessionId)) l = Some x ->
  x ∈ l /\ ChatSession.id x = sessionId.
Proof.
  intros Hfind. apply find_some in Hfind as [Hin Hid].
  split; [now apply list_elem_of_In|]. now apply bool_decide_eq_true_1 in Hid.
Qed.

Lemma same_store_named s s' :
  same_store s s' -> active_named (fst s) -> active_named (fst s').
Proof.
  intros (Hi & Ha & _) (a & Hactive & Hin). exists a. split; [congruence|].
  rewrite Hi. destruct Hin as [Hnil|Hin]; [|now right]. left.
  rewrite Hnil in Hi. now destruct (sessions (fst s')).
Qed.

Lemma same_store_nonempty s s' :
  same_store s s' -> sessions (fst s) <> [] -> sessions (fst s') <> [].
Proof.
  intros (Hi & _) Hne Hnil. rewrite Hnil in Hi. now destruct (sessions (fst s)).
Qed.

Lemma same_store_unique w0 s s' :
  same_store s s' -> store_invariant w0 s -> store_invariant w0 s'.
Proof.
  intros Hsame (Hnamed & Hnodup & Hids & Hfresh).
  split; [eapply same_store_named; eauto|].
  destruct Hsame as (Hi & _ & Hr & Hd).
  split; [now rewrite Hi|]. split; [congruence|].
  intros x k Hx Hk.
  assert (ChatSession.id x ∈ ChatSession.id <$> sessions (fst s)) as Hin.
  { rewrite <- Hi. now apply list_elem_of_fmap_2. }
  apply list_elem_of_fmap in Hin as (y & -> & Hy).
  apply Hfresh; [exact Hy|lia].
Qed.

Lemma switch_named sessionId st w :
  active_named st -> active_named (fst (snd (dispatch (switchSession sessionId) (st, w)))).
Proof.
  intros Hnamed. rewrite switchSession_run.
  destruct (List.find _ (sessions st)) as [x|] eqn:Hfind; [|exact Hnamed].
  apply find_id_some in Hfind as [Hx Hid].
  exists sessionId. split; [reflexivity|]. right. cbn [fst sessions].
  rewrite <- Hid. now apply list_elem_of_fmap_2.
Qed.

Lemma handler_named idle a s :
  active_named (fst s) -> active_named (fst (handler_result idle a s)).
Proof.
  intros Hnamed. destruct a as [|sessionId|sessionId same_array|query];
    cbn [handler_result].
  - now apply active_named_perform.
  - now apply active_named_perform.
  - now apply switch_named.
  - destruct (Nat.eqb _ _); [now apply active_named_perform|exact Hnamed].
Qed.

Lemma handler_unique w0 idle a s :
  (forall i j, random_ids w0 i = random_ids w0 j -> i = j) ->
  store_invariant w0 s -> store_invariant w0 (handler_result idle a s).
Proof.
  intros Hinj Hinv.
  pose proof (invariant_idle w0 idle s Hinv) as Hinv'.
  destruct a as [|sessionId|sessionId same_array|query]; cbn [handler_result].
  - now apply invariant_perform.
  - now apply invariant_perform.
  - split; [apply switch_named, Hinv|].
    destruct Hinv as (_ & Hrest). rewrite switchSession_run.
    now destruct (List.find _ (sessions (fst s))).
  - destruct (Nat.eqb _ _); [now apply invariant_perform|exact Hinv'].
Qed.

Lemma handler_nonempty a s :
  active_named (fst s) -> sessions (fst s) <> [] ->
  sessions (fst (handler_result false a s)) <> [].
Proof.
  intros Hnamed Hne. destruct s as [st w].
  destruct a as [|sessionId|sessionId same_array|query]; cbn [handler_result fst snd].
  - now apply deferred_perform_nonempty.
  - now apply deferred_perform_nonempty.
  - rewrite switchSession_run. now destruct (List.find _ (sessions st)).
  - destruct (Nat.eqb _ _); [now apply deferred_perform_nonempty|exact Hne].
Qed.

Lemma initialize_ok_mount w s :
  mount w = Ok s ->
  fst (fst (initialize w)) = Ok tt /\ same_store (snd (initialize w)) s.
Proof.
  unfold mount. destruct (initialize w) as [[[[]|] log] s0]; [|discriminate].
  intros Hrun. split; [reflexivity|]. now apply sync_effect_same_store in Hrun.
Qed.

Lemma act_all_named steps s s' :
  act_all steps s = Ok s' -> active_named (fst s) -> active_named (fst s').
Proof.
  revert s. induction steps as [|[idle a] steps IH]; intros s.
  - now intros [= <-].
  - cbn. destruct (act idle a s) as [s1|] eqn:Hact; [|discriminate].
    intros Hrun Hnamed. apply (IH s1 Hrun).
    eapply same_store_named; [exact (act_store _ _ _ _ Hact)|].
    now apply handler_named.
Qed.

Lemma act_all_unique w0 steps s s' :
  (forall i j, random_ids w0 i = random_ids w0 j -> i = j) ->
  act_all steps s = Ok s' -> store_invariant w0 s -> store_invariant w0 s'.
Proof.
  intros Hinj. revert s. induction steps as [|[idle a] steps IH]; intros s.
  - now intros [= <-].
  - cbn. destruct (act idle a s) as [s1|] eqn:Hact; [|discriminate].
    intros Hrun Hinv. apply (IH s1 Hrun).
    eapply same_store_unique; [exact (act_store _ _ _ _ Hact)|].
    now apply handler_unique.
Qed.

Lemma act_all_nonempty steps s s' :
  Forall (fun step => fst step = false) steps ->
  act_all steps s = Ok s' -> active_named (fst s) -> sessions (fst s) <> [] ->
  sessions (fst s') <> [].
Proof.
  intros Hall. revert s. induction Hall as [|[idle a] steps Hidle Hall IH]; intros s.
  - now intros [= <-].
  - cbn in Hidle. subst idle. cbn.
    destruct (act false a s) as [s1|] eqn:Hact; [|discriminate].
    intros Hrun Hnamed Hne.
    pose proof (act_store _ _ _ _ Hact) as Hsame.
    apply (IH s1 Hrun).
    + eapply same_store_named; [exact Hsame|]. now apply handler_named.
    + eapply same_store_nonempty; [exact Hsame|]. now apply handler_nonempty.
Qed.

(** X4. After a mount that did not throw, whatever is then done through the
    hook (new chat, delete, switch, send, each followed by the renders and
    the runs of the effect that it causes), as long as nothing throws: there
    is an active id, and it names a session of the list whenever the list is
    not empty, exactly one when generated ids are unique; and the list is
    never empty if no step found the component idle. *)
Theorem hook_keeps_active_session_named w steps s :
  use_hook w steps = Ok s ->
  active_named (fst s) /\
  active_in_list (fst s) /\
  (ids_are_unique w -> sessions (fst s) <> [] -> exactly_one_active (fst s)) /\
  (Forall (fun step => fst step = false) steps -> sessions (fst s) <> []).
Proof.
  unfold use_hook. destruct (mount w) as [s0|] eqn:Hmount; [|discriminate].
  intros Hrun. apply initialize_ok_mount in Hmount as [Hok Hsame].
  pose proof (active_named_initialize w Hok) as Hnamed0.
  pose proof (same_store_named _ _ Hsame Hnamed0) as Hnamed1.
  pose proof (act_all_named steps s0 s Hrun Hnamed1) as Hnamed.
  split; [exact Hnamed|]. split; [now apply active_named_in_list|]. split.
  - intros Hunique Hne.
    pose proof (invariant_initialize w Hunique Hok) as Hinit.
    destruct Hunique as [Hinj _].
    apply (invariant_one w); [|exact Hne].
    apply (act_all_unique w steps s0 s Hinj Hrun).
    now apply (same_store_unique w _ _ Hsame).
  - intros Hdeferred.
    apply (act_all_nonempty steps s0 s Hdeferred Hrun Hnamed1).
    apply (same_store_nonempty _ _ Hsame).
    destruct (initialize_first_active w Hok) as (x & rest & -> & _). discriminate.
Qed.

Lemma hook_keeps_active_session_named_witness :
  let w := with_item (SessionsJson [older_session; newer_session]) offline_world in
  let steps := [(true, SwitchChat (ChatSession.id older_session) false);
                (false, SendMessage coffee_query);
                (false, DeleteChat (ChatSession.id older_session));
                (true, NewChat);
                (true, SwitchChat (ChatSession.id newer_session) false)] in
  match use_hook w steps with
  | Ok s => sessions (fst s) <> [] /\ exactly_one_active (fst s)
  | Throw => False
  end.
Proof.
  cbv zeta.
  assert (match
            use_hook
              (with_item (SessionsJson [older_session; newer_session]) offline_world)
              [(true, SwitchChat (ChatSession.id older_session) false);
               (false, SendMessage coffee_query);
               (false, DeleteChat (ChatSession.id older_session));
               (true, NewChat);
               (true, SwitchChat (ChatSession.id newer_session) false)]
          with
          | Ok s => negb (Nat.eqb (length (sessions (fst s))) 0)
          | Throw => false
          end = true) as Hcheck by (vm_compute; reflexivity).
  destruct (use_hook
              (with_item (SessionsJson [older_session; newer_session]) offline_world)
              [(true, SwitchChat (ChatSession.id older_session) false);
               (false, SendMessage coffee_query);
               (false, DeleteChat (ChatSession.id older_session));
               (true, NewChat);
               (true, SwitchChat (ChatSession.id newer_session) false)])
    as [s|] eqn:Hrun; [|discriminate Hcheck].
  assert (sessions (fst s) <> []) as Hne.
  { intros Hnil. rewrite Hnil in Hcheck. discriminate Hcheck. }
  split; [exact Hne|].
  destruct (hook_keeps_active_session_named _ _ _ Hrun) as (_ & _ & Hone & _).
  apply Hone; [exact sample_ids_are_unique|exact Hne].
Defined.

(** X5. Sending creates a session exactly when the handler saw none, and
    never changes the sessions it saw: afterwards the list is the one it saw,
    or the single new session, which is then active. *)
Theorem handleSendMessage_ensures_a_session q st w :
  sessions (send_state q st w) =
    (if Nat.eqb (length (sessions st)) 0 then [fresh_session w] else sessions st) /\
  activeSessionId (send_state q st w) =
    (if Nat.eqb (length (sessions st)) 0
     then Some (ChatSession.id (fresh_session w)) else activeSessionId st) /\
  sessions (send_state q st w) <> [].
Proof.
  rewrite send_state_eq. cbn [sessions activeSessionId].
  destruct (sessions st) as [|x l] eqn:Hsessions; cbn; repeat split; discriminate.
Qed.
(** ** The first message gives the session its title *)

Lemma getChatTitle_user_first q rest :
  getChatTitle (user_message q :: rest) = Some (title_of q).
Proof.
  unfold getChatTitle, title_of, slice0.
  change (List.find _ (user_message q :: rest)) with (Some (user_message q)).
  cbn [ChatMessage.content user_message]. f_equal.
  destruct (Nat.leb_spec (length q) 30) as [Hshort|Hlong].
  - rewrite take_ge by lia. now rewrite Nat.ltb_irrefl.
  - rewrite length_take, Nat.min_l by lia.
    destruct (Nat.ltb_spec 30 (length q)); [reflexivity|lia].
Qed.

Lemma final_reply_role q w : ChatMessage.role (final_reply q w) = assistant.
Proof.
  unfold final_reply.
  destruct (settles q w 0), (settles q w 1), (settles q w 2); reflexivity.
Qed.

(** X6. In a session that is active, still called "New Chat" and the only
    one with its id, sending the first message gives the session, through the
    two runs of the effect, the messages of the buffer and, as title, the
    query itself when it has at most 30 characters and its first 30
    characters followed by "..." otherwise; the other sessions are as
    before. *)
Theorem first_message_titles_session q st w a x before after idle :
  sessions st = before ++ x :: after ->
  ChatSession.id x = a ->
  a <> [] ->
  (forall y, y ∈ before ++ after -> ChatSession.id y <> a) ->
  activeSessionId st = Some a ->
  ChatSession.title x = lit "New Chat" ->
  messages st = [] ->
  exists s' x' reply,
    act idle (SendMessage q) (st, w) = Ok s' /\
    sessions (fst s') = before ++ x' :: after /\
    ChatSession.id x' = a /\
    ChatSession.title x' = title_of q /\
    ChatSession.messages x' = [user_message q; reply] /\
    ChatSession.createdAt x' = ChatSession.createdAt x /\
    ChatMessage.role reply = assistant /\
    messages (fst s') = [user_message q; reply] /\
    activeSessionId (fst s') = Some a.
Proof.
  intros Hsplit Hid Hnonempty Hunique Hactive Htitle Hbuffer.
  cbn [act fst snd]. rewrite send_run.
  assert (Nat.eqb (length (sessions st)) 0 = false) as Hlen.
  { rewrite Hsplit, length_app. cbn. apply Nat.eqb_neq. lia. }
  unfold sending_state, buffer_before. rewrite Hlen, Hbuffer. cbn [app].
  rewrite (sync_runs a) by (assumption || discriminate).
  cbn [messages].
  rewrite (updateSession_unique a _ _ _ before x after);
    [|exact Hsplit|exact Hid|exact Hunique].
  rewrite Htitle, bool_decide_eq_true_2 by reflexivity.
  change (0 <? length [user_message q]) with true. cbn [andb].
  rewrite getChatTitle_user_first.
  cbn [fst snd with_reply sessions activeSessionId messages isLoading app].
  rewrite (sync_runs a) by (assumption || discriminate).
  cbn [messages].
  erewrite (updateSession_unique a _ _ _ before _ after);
    [|reflexivity|reflexivity|exact Hunique].
  cbn [ChatSession.title ChatSession.createdAt].
  match goal with |- context [if ?c then getChatTitle ?m else Some ?t] =>
    assert ((if c then getChatTitle m else Some t) = Some (title_of q)) as ->
      by (destruct c; [apply getChatTitle_user_first|reflexivity])
  end.
  eexists _, _, _. split; [reflexivity|].
  cbn [fst sessions messages activeSessionId ChatSession.id ChatSession.title
         ChatSession.messages ChatSession.createdAt].
  repeat split; auto. apply final_reply_role.
Qed.

Lemma first_message_titles_session_witness :
  let st := mkState [fresh_session offline_world]
              (Some (ChatSession.id (fresh_session offline_world))) [] false in
  exists s' x' reply,
    act true (SendMessage coffee_query) (st, offline_world) = Ok s' /\
    sessions (fst s') = [x'] /\
    ChatSession.title x' = coffee_query /\
    ChatSession.messages x' = [user_message coffee_query; reply].
Proof.
  cbv zeta.
  destruct (first_message_titles_session coffee_query
              (mkState [fresh_session offline_world]
                 (Some (ChatSession.id (fresh_session offline_world))) [] false)
              offline_world (ChatSession.id (fresh_session offline_world))
              (fresh_session offline_world) [] [] true)
    as (s' & x' & reply & Hrun & Hsessions & _ & Htitle & Hmessages & _).
  - reflexivity.
  - reflexivity.
  - discriminate.
  - intros y Hy. now apply elem_of_nil in Hy.
  - reflexivity.
  - reflexivity.
  - reflexivity.
  - exists s', x', reply. repeat split; assumption.
Defined.

(** ** Opening a session *)

(** X22. Opening a session that has a title and messages changes nothing in
    it but its [updatedAt]: switching to it loads its messages, and the
    effect, which then runs, stamps it with the current time.  The effect
    does not run, and nothing is stamped, when the session is the active one
    already and its messages are the array in the buffer. *)
Theorem opening_a_session_stamps_it st w a x before after idle same_array :
  sessions st = before ++ x :: after ->
  ChatSession.id x = a ->
  a <> [] ->
  (forall y, y ∈ before ++ after -> ChatSession.id y <> a) ->
  ChatSession.title x <> lit "New Chat" ->
  ChatSession.messages x <> [] ->
  act idle (SwitchChat a same_array) (st, w) =
    Ok (if bool_decide (activeSessionId st = Some a) && same_array
        then
          (mkState (sessions st) (Some a) (ChatSession.messages x) (isLoading st),
           with_fiber_idle idle w)
        else
          (mkState
             (before
                ++ ChatSession.mk a (ChatSession.title x) (ChatSession.messages x)
                     (ChatSession.createdAt x) (clock w (clock_reads w))
                :: after)
             (Some a) (ChatSession.messages x) (isLoading st),
           snd (Date_now (with_fiber_idle idle w)))).
Proof.
  intros Hsplit Hid Hnonempty Hunique Htitled Hmessages.
  assert (forall y, y ∈ before -> ChatSession.id y <> a) as Hbefore.
  { intros y Hy. apply Hunique, elem_of_app. now left. }
  cbn [act fst snd].
  rewrite (switchSession_known_id_run a st _ before x after Hsplit Hbefore Hid).
  rewrite Hsplit at 1. rewrite (find_id_first a before x after Hbefore Hid).
  unfold sync_effect. cbn [fst activeSessionId].
  destruct (bool_decide (activeSessionId st = Some a) && same_array);
    [reflexivity|].
  rewrite (sync_runs a) by (assumption || reflexivity).
  cbn [messages].
  rewrite (updateSession_unique a _ _ _ before x after);
    [|exact Hsplit|exact Hid|exact Hunique].
  rewrite bool_decide_eq_false_2 by assumption. reflexivity.
Qed.

Lemma opening_a_session_stamps_it_witness :
  let st := mkState [newer_session; older_session]
              (Some (ChatSession.id newer_session)) [] false in
  let opened := mkState [newer_session; older_session]
                  (Some (ChatSession.id older_session))
                  (ChatSession.messages older_session) false in
  (exists w',
     act true (SwitchChat (ChatSession.id older_session) false) (st, offline_world) =
       Ok (mkState
             [newer_session;
              ChatSession.mk (ChatSession.id older_session)
                (ChatSession.title older_session)
                (ChatSession.messages older_session)
                (ChatSession.createdAt older_session) 1700000000000]
             (Some (ChatSession.id older_session))
             (ChatSession.messages older_session) false, w')) /\
  (exists w',
     act true (SwitchChat (ChatSession.id older_session) true)
       (opened, offline_world) = Ok (opened, w')).
Proof.
  cbv zeta. split.
  - eexists.
    rewrite (opening_a_session_stamps_it
               (mkState [newer_session; older_session]
                  (Some (ChatSession.id newer_session)) [] false)
               offline_world (ChatSession.id older_session) older_session
               [newer_session] [] true false).
    + reflexivity.
    + reflexivity.
    + reflexivity.
    + discriminate.
    + intros y Hy. apply list_elem_of_singleton in Hy as ->. discriminate.
    + discriminate.
    + discriminate.
  - eexists.
    rewrite (opening_a_session_stamps_it
               (mkState [newer_session; older_session]
                  (Some (ChatSession.id older_session))
                  (ChatSession.messages older_session) false)
               offline_world (ChatSession.id older_session) older_session
               [newer_session] [] true true).
    + reflexivity.
    + reflexivity.
    + reflexivity.
    + discriminate.
    + intros y Hy. apply list_elem_of_singleton in Hy as ->. discriminate.
    + discriminate.
    + discriminate.
Defined.

(** ** Which stored session becomes active on a tie *)

Lemma sort_insert_front x l :
  (forall y, y ∈ l -> newer_first x y) ->
  sort_insert by_updatedAt_desc x l = x :: l.
Proof.
  destruct l as [|h l]; [reflexivity|]. intros Hall. cbn.
  unfold by_updatedAt_desc.
  pose proof (Hall h (list_elem_of_here _ _)) as Hh. unfold newer_first in Hh.
  destruct (Z.leb_spec (ChatSession.updatedAt h - ChatSession.updatedAt x) 0);
    [reflexivity|lia].
Qed.

Lemma sorted_by_first_newest before x after :
  (forall y, y ∈ before ->
     (ChatSession.updatedAt y < ChatSession.updatedAt x)%Z) ->
  (forall y, y ∈ after ->
     (ChatSession.updatedAt y <= ChatSession.updatedAt x)%Z) ->
  sorted_by by_updatedAt_desc (before ++ x :: after) =
    x :: sorted_by by_updatedAt_desc (before ++ after).
Proof.
  intros Hbefore Hafter. induction before as [|y before IH].
  - cbn. apply sort_insert_front. intros z Hz.
    rewrite <- sorted_by_perm in Hz. now apply Hafter.
  - cbn. rewrite IH by (intros z Hz; apply Hbefore; now apply list_elem_of_further).
    cbn. unfold by_updatedAt_desc at 1.
    pose proof (Hbefore y (list_elem_of_here _ _)) as Hy.
    destruct (Z.leb_spec (ChatSession.updatedAt x - ChatSession.updatedAt y) 0);
      [lia|reflexivity].
Qed.

(** X7. Of the stored sessions, the one that becomes active on mounting is
    the first in stored order among those with the greatest [updatedAt]; it
    moves to the front of the list. *)
Theorem initialize_prefers_earlier_on_ties w before x after :
  (forall y, y ∈ before ->
     (ChatSession.updatedAt y < ChatSession.updatedAt x)%Z) ->
  (forall y, y ∈ after ->
     (ChatSession.updatedAt y <= ChatSession.updatedAt x)%Z) ->
  fst (snd (initialize (with_item (SessionsJson (before ++ x :: after)) w))) =
    mkState (x :: sorted_by by_updatedAt_desc (before ++ after))
      (Some (ChatSession.id x)) (ChatSession.messages x) false.
Proof.
  intros Hbefore Hafter.
  pose proof (sorted_by_first_newest before x after Hbefore Hafter) as Hsorted.
  destruct (before ++ x :: after) as [|first others] eqn:Hlist.
  { now destruct before. }
  destruct (initialize_stored w first others) as (m & rest & Hm & _ & ->).
  rewrite Hsorted in Hm. injection Hm as <- <-. reflexivity.
Qed.

Lemma initialize_prefers_earlier_on_ties_witness :
  let twin := ChatSession.mk (lit "i9j0k1l2") (lit "New Chat") []
                1700000001500 1700000002000 in
  let st := fst (snd (initialize
                        (with_item (SessionsJson [older_session; newer_session; twin])
                           offline_world))) in
  activeSessionId st = Some (ChatSession.id newer_session) /\
  sessions st = [newer_session; twin; older_session].
Proof.
  cbv zeta.
  pose proof (initialize_prefers_earlier_on_ties offline_world [older_session]
                newer_session
                [ChatSession.mk (lit "i9j0k1l2") (lit "New Chat") []
                   1700000001500 1700000002000]) as Hmount.
  cbn [app] in Hmount. rewrite Hmount.
  - split; [reflexivity|]. vm_compute. reflexivity.
  - intros y Hy. apply list_elem_of_singleton in Hy as ->. vm_compute. reflexivity.
  - intros y Hy. apply list_elem_of_singleton in Hy as ->. vm_compute. discriminate.
Defined.

(** * The chat view *)

(** ** Scrolling *)

(** X8. The element scrolled into view always exists: its index is below
    the number of rendered elements, and nothing is scrolled when there is
    none. *)
Theorem scroll_target_in_bounds msgs elements i :
  scroll_target msgs elements = Some i ->
  i < elements /\ scroll_target msgs 0 = None.
Proof.
  unfold scroll_target. intros Htarget. split; [|reflexivity].
  destruct (Nat.ltb_spec 0 elements) as [Hpos|]; [|discriminate].
  cbv zeta in Htarget.
  destruct (has_role assistant _ && has_role user _ && _) eqn:Hcond.
  - injection Htarget as <-.
    apply andb_prop in Hcond as [_ Hbound]. now apply Nat.ltb_lt in Hbound.
  - injection Htarget as <-. lia.
Qed.

Lemma scroll_target_in_bounds_witness :
  2 < 3 /\ scroll_target [user_message coffee_query] 0 = None.
Proof.
  apply (scroll_target_in_bounds
           [user_message coffee_query; notice_message; user_message coffee_query]
           3 2).
  reflexivity.
Defined.

(** X9. When every message is rendered and the list ends with a question of
    the user followed by the reply of the assistant, the view scrolls to the
    question, not to the reply. *)
Theorem scroll_target_after_reply earlier question reply :
  ChatMessage.role question = user ->
  ChatMessage.role reply = assistant ->
  scroll_target (earlier ++ [question; reply])
    (length (earlier ++ [question; reply])) = Some (length earlier).
Proof.
  intros Hquestion Hreply. unfold scroll_target.
  rewrite length_app. cbn [length].
  destruct (Nat.ltb_spec 0 (length earlier + 2)) as [_|]; [|lia].
  cbv zeta.
  destruct (Z.ltb_spec 0 (Z.of_nat (length earlier + 2) - 1)) as [_|]; [|lia].
  replace (Z.of_nat (length earlier + 2) - 1 - 1)%Z with (Z.of_nat (length earlier))
    by lia.
  replace (Z.of_nat (length earlier + 2) - 1)%Z with (Z.of_nat (S (length earlier)))
    by lia.
  unfold message_at.
  destruct (Z.ltb_spec (Z.of_nat (S (length earlier))) 0); [lia|].
  destruct (Z.ltb_spec (Z.of_nat (length earlier)) 0); [lia|].
  rewrite !Nat2Z.id.
  rewrite (list_lookup_middle earlier [reply] question (length earlier)) by reflexivity.
  replace (earlier ++ [question; reply]) with ((earlier ++ [question]) ++ [reply])
    by now rewrite <- app_assoc.
  rewrite (list_lookup_middle (earlier ++ [question]) [] reply (S (length earlier)))
    by (rewrite length_app; cbn; lia).
  cbn [has_role]. rewrite Hquestion, Hreply. cbn [Role_eqb andb].
  destruct (Nat.ltb_spec (length earlier) (length earlier + 2)); [reflexivity|lia].
Qed.

Lemma scroll_target_after_reply_witness :
  scroll_target
    [user_message coffee_query; notice_message; user_message coffee_query;
     notice_message] 4 = Some 2.
Proof.
  apply (scroll_target_after_reply [user_message coffee_query; notice_message]
           (user_message coffee_query) notice_message); reflexivity.
Defined.

(** ** How a message is shown *)

Lemma starts_with_spec needle hay :
  starts_with needle hay = true <-> exists post, hay = needle ++ post.
Proof.
  revert hay. induction needle as [|a needle IH]; intros hay; cbn.
  - split; [eauto|reflexivity].
  - destruct hay as [|b hay].
    + split; [discriminate|]. intros [post H]. discriminate H.
    + rewrite andb_true_iff, N.eqb_eq, IH. split.
      * intros [-> [post ->]]. eauto.
      * intros [post [= -> ->]]. eauto.
Qed.

Lemma includes_spec needle hay :
  includes needle hay = true <-> exists pre post, hay = pre ++ needle ++ post.
Proof.
  induction hay as [|b hay IH]; cbn [includes]; rewrite orb_true_iff, starts_with_spec.
  - split.
    + intros [[post H]|H]; [|discriminate]. exists [], post. exact H.
    + intros (pre & post & H). left.
      destruct pre; [eauto|discriminate H].
  - rewrite IH. split.
    + intros [[post H]|(pre & post & H)].
      * exists [], post. exact H.
      * exists (b :: pre), post. cbn. now f_equal.
    + intros (pre & post & H). destruct pre as [|c pre].
      * left. eauto.
      * right. injection H as -> ->. eauto.
Qed.

(** X10. The reply that a dispatch ends with is shown with its results when
    one of the three attempts succeeded, and in the error box when all of
    them failed; it is never shown as plain text. *)
Theorem reply_rendering q st w :
  exists reply,
    messages (send_state q st w) = buffer_before st ++ [user_message q; reply] /\
    match settles q w 0, settles q w 1, settles q w 2 with
    | Throw, Throw, Throw => message_rendering reply = Ok ErrorBox
    | _, _, _ => message_rendering reply = Ok RichResults
    end.
Proof.
  exists (final_reply q w). split; [now rewrite send_state_eq|].
  unfold final_reply.
  destruct (settles q w 0), (settles q w 1), (settles q w 2);
    solve [reflexivity | vm_compute; reflexivity].
Qed.

(** X11. A message of the user is shown in the error box exactly when its
    text contains "I'm having trouble connecting", and as plain text
    otherwise. *)
Theorem user_message_rendering q :
  ((exists pre post, q = pre ++ trouble_phrase ++ post) <->
   message_rendering (user_message q) = Ok ErrorBox) /\
  (message_rendering (user_message q) = Ok ErrorBox \/
   message_rendering (user_message q) = Ok Markdown).
Proof.
  unfold message_rendering. cbn [user_message ChatMessage.role ChatMessage.content
                                 ChatMessage.results Role_eqb andb].
  rewrite <- includes_spec.
  destruct (includes trouble_phrase q).
  - split; [split; reflexivity|now left].
  - split; [split; discriminate|now right].
Qed.

(** ** Submitting *)

Lemma trimStart_nil s :
  trimStart s = [] <-> Forall (fun c => is_whitespace c = true) s.
Proof.
  induction s as [|c s IH]; cbn [trimStart].
  - split; [constructor|reflexivity].
  - destruct (is_whitespace c) eqn:Hc.
    + rewrite IH. split; [now constructor|now inversion 1].
    + split; [discriminate|]. inversion 1; congruence.
Qed.

Lemma trimStart_head s c rest :
  trimStart s = c :: rest -> is_whitespace c = false.
Proof.
  induction s as [|d s IH]; cbn [trimStart]; [discriminate|].
  destruct (is_whitespace d) eqn:Hd; [exact IH|]. now intros [= <- _].
Qed.

Lemma trim_nil s :
  trim s = [] <-> Forall (fun c => is_whitespace c = true) s.
Proof.
  unfold trim. split.
  - intros Htrim. apply (f_equal (@rev _)) in Htrim.
    rewrite rev_involutive in Htrim. cbn in Htrim.
    apply trimStart_nil in Htrim.
    destruct (trimStart s) as [|c rest] eqn:Hstart; [now apply trimStart_nil|].
    apply trimStart_head in Hstart.
    apply Forall_rev in Htrim. rewrite rev_involutive in Htrim.
    inversion Htrim; congruence.
  - intros Hall. apply trimStart_nil in Hall. now rewrite Hall.
Qed.

(** X12. Submitting a text that consists of white space only does nothing:
    no message is appended, no request is issued, the loading flag is not
    touched. *)
Theorem handleSubmit_blank message st w :
  Forall (fun c => is_whitespace c = true) message ->
  handleSubmit message st w = (tt, [], w).
Proof.
  intros Hblank. apply trim_nil in Hblank. unfold handleSubmit.
  now rewrite Hblank.
Qed.

Lemma handleSubmit_blank_witness :
  handleSubmit (lit "   ") initial_state offline_world = (tt, [], offline_world).
Proof.
  apply handleSubmit_blank. repeat constructor.
Defined.

(** X13. Submitting a text with at least one character that is not white
    space sends the text as typed: the user message carries it untrimmed. *)
Theorem handleSubmit_sends_text_as_typed message st w :
  Exists (fun c => is_whitespace c = false) message ->
  handleSubmit message st w = handleSendMessage message st w /\
  exists reply,
    messages (fst (snd (dispatch (handleSubmit message) (st, w)))) =
      buffer_before st ++ [ChatMessage.mk user (JStr message) None; reply].
Proof.
  intros Htext.
  assert (handleSubmit message st = handleSendMessage message st) as Hsame.
  { unfold handleSubmit. destruct (trim message) as [|c rest] eqn:Htrim;
      [|reflexivity].
    apply trim_nil in Htrim. apply Exists_exists in Htext as (c & Hin & Hc).
    rewrite Forall_forall in Htrim.
    rewrite (Htrim c Hin) in Hc. discriminate Hc. }
  split; [now rewrite Hsame|].
  exists (final_reply message w).
  pose proof (send_state_eq message st w) as Hstate.
  unfold send_state, dispatch in *. cbn [fst snd] in *.
  rewrite Hsame. now rewrite Hstate.
Qed.

Lemma handleSubmit_sends_text_as_typed_witness :
  exists reply,
    messages (fst (snd (dispatch (handleSubmit (lit "  coffee "))
                          (initial_state, offline_world)))) =
      [user_message (lit "  coffee "); reply].
Proof.
  destruct (handleSubmit_sends_text_as_typed (lit "  coffee ") initial_state
              offline_world) as [_ [reply Hreply]].
  - apply Exists_cons_tl, Exists_cons_tl, Exists_cons_hd. reflexivity.
  - exists reply. exact Hreply.
Defined.

(** * Result widgets *)

Lemma map_items_ok {A} (f : json -> result A) items :
  (forall item, item ∈ items -> is_ok (f item) = true) ->
  exists l, map_items f items = Ok l /\ length l = length items /\
    forall i item, items !! i = Some item ->
      exists y, l !! i = Some y /\ f item = Ok y.
Proof.
  induction items as [|item items IH]; intros Hall.
  - exists []. repeat split. intros i item Hi. discriminate Hi.
  - destruct IH as (l & Hl & Hlen & Hlookup).
    { intros x Hx. apply Hall. now apply list_elem_of_further. }
    pose proof (Hall item (list_elem_of_here _ _)) as Hitem.
    destruct (f item) as [y|] eqn:Hy; [|discriminate Hitem].
    exists (y :: l). cbn. rewrite Hy. cbn. rewrite Hl. cbn.
    repeat split; [now rewrite Hlen|].
    intros [|i] x Hx; cbn in *.
    + injection Hx as <-. eauto.
    + now apply Hlookup.
Qed.

Lemma map_items_throw {A} (f : json -> result A) items item :
  item ∈ items -> f item = Throw -> map_items f items = Throw.
Proof.
  intros Hin Hthrow. induction Hin as [item items|item other items Hin IH]; cbn.
  - now rewrite Hthrow.
  - destruct (f other); [|reflexivity]. cbn. now rewrite IH.
Qed.

Lemma item_get_ok item k : item <> JNull -> is_ok (item_get item k) = true.
Proof. destruct item; intros H; [contradiction|reflexivity..]. Qed.

(** X14. From results whose organic results hold no [null], the assistant
    message derives one source per result, in order, each with the title,
    link and snippet read off that result. *)
Theorem sources_one_per_result sd items :
  SafeData.organic_results sd = JArr items ->
  (forall item, item ∈ items -> item <> JNull) ->
  exists l,
    sources (Some sd) = Ok l /\ length l = length items /\
    forall i item, items !! i = Some item ->
      exists src, l !! i = Some src /\
        item_get item Title = Ok (Source.title src) /\
        item_get item Link = Ok (Source.link src) /\
        item_get item Snippet = Ok (Source.snippet src).
Proof.
  intros Horganic Hnonnull. unfold sources. rewrite Horganic.
  match goal with |- context [map_items ?f items] =>
    destruct (map_items_ok f items) as (l & Hl & Hlen & Hlookup) end.
  { intros item Hin. specialize (Hnonnull item Hin).
    destruct item; [contradiction|reflexivity..]. }
  exists l. split; [exact Hl|]. split; [exact Hlen|].
  intros i item Hi. destruct (Hlookup i item Hi) as (src & Hsrc & Hread).
  exists src. split; [exact Hsrc|].
  destruct item; try discriminate Hread; injection Hread as <-; auto.
Qed.

Lemma sources_one_per_result_witness :
  exists sd l,
    safeData coffee_body coffee_query = Ok sd /\
    sources (Some sd) = Ok l /\ length l = 1.
Proof.
  destruct (safeData coffee_body coffee_query) as [sd|] eqn:Hsd;
    [|vm_compute in Hsd; discriminate Hsd].
  assert (SafeData.organic_results sd = JArr [coffee_link]) as Horganic.
  { vm_compute in Hsd. injection Hsd as <-. reflexivity. }
  destruct (sources_one_per_result sd [coffee_link] Horganic) as (l & Hl & Hlen & _).
  - intros item Hin. apply list_elem_of_singleton in Hin as ->. discriminate.
  - exists sd, l. auto.
Defined.

(** X15. One [null] among the organic results makes the derivation of the
    sources throw, so the assistant message cannot be rendered. *)
Theorem sources_null_entry_throws sd items :
  SafeData.organic_results sd = JArr items ->
  JNull ∈ items ->
  sources (Some sd) = Throw.
Proof.
  intros Horganic Hnull. unfold sources. rewrite Horganic.
  now apply (map_items_throw _ items JNull).
Qed.

Lemma sources_null_entry_throws_witness :
  sources (Some (SafeData.mk (JArr [coffee_link; JNull]) JNull (JArr []) (JArr [])
                   (JStr coffee_summary) (JArr []))) = Throw.
Proof.
  apply (sources_null_entry_throws _ [coffee_link; JNull]); [reflexivity|].
  apply list_elem_of_further, list_elem_of_here.
Defined.

(** X16. For a list that is not empty, the [Sources] widget shows every
    source exactly once and in order, the first three always visible and the
    others behind a toggle that announces how many they are and that exists
    only when there are more than three; for an empty list it shows
    nothing. *)
Theorem Sources_shows_every_source {A} (l : list A) :
  l <> [] ->
  @Sources A [] = None /\
  exists visible collapsed more,
    Sources l = Some (visible, collapsed, more) /\
    visible ++ collapsed = l /\
    length visible = Nat.min 3 (length l) /\
    more = (if 3 <? length l then Some (length l - 3) else None).
Proof.
  intros Hne. split; [reflexivity|]. unfold Sources.
  destruct (Nat.eqb_spec (length l) 0) as [Hlen|_].
  { destruct l; [contradiction|discriminate Hlen]. }
  eexists _, _, _. split; [reflexivity|]. split; [apply take_drop|].
  split; [apply length_take|].
  rewrite length_drop.
  destruct (Nat.ltb_spec 0 (length l - 3)), (Nat.ltb_spec 3 (length l));
    try reflexivity; lia.
Qed.

Lemma Sources_shows_every_source_witness :
  Sources [1; 2; 3; 4; 5] = Some ([1; 2; 3], [4; 5], Some 2) /\
  Sources [1; 2] = Some ([1; 2], [], None).
Proof.
  split.
  - destruct (Sources_shows_every_source [1; 2; 3; 4; 5])
      as (_ & visible & collapsed & more & Hshown & _); [discriminate|].
    reflexivity.
  - destruct (Sources_shows_every_source [1; 2])
      as (_ & visible & collapsed & more & Hshown & _); [discriminate|].
    reflexivity.
Defined.

Lemma sublist_filter_bool {A} (f : A -> bool) (l : list A) :
  sublist (List.filter f l) l.
Proof.
  induction l as [|x l IH]; cbn; [constructor|].
  destruct (f x); now constructor.
Qed.

(** X17. The related searches that get a button are, in their original
    order, exactly the entries that are objects with a truthy [query];
    [null] and other entries are skipped without an error. *)
Theorem validRelatedSearches_keeps_objects_with_query items :
  sublist (validRelatedSearches items) items /\
  forall item,
    item ∈ validRelatedSearches items <->
    item ∈ items /\
    exists fields v,
      item = JObj fields /\ fields !! lit "query" = Some v /\ truthy v = true.
Proof.
  split; [apply sublist_filter_bool|].
  intros item. unfold validRelatedSearches.
  rewrite list_elem_of_In, filter_In, <- list_elem_of_In.
  split.
  - intros [Hin Hkeep]. split; [exact Hin|].
    apply andb_prop in Hkeep as [Htruthy Hquery].
    destruct item as [|b|x|s|l|fields]; unfold item_get in Hquery;
      try discriminate Hquery.
    change (item_key_name Query) with (lit "query") in Hquery.
    destruct (fields !! lit "query") as [v|] eqn:Hv; [|discriminate Hquery].
    eauto.
  - intros [Hin (fields & v & -> & Hv & Htruthy)]. split; [exact Hin|].
    unfold item_get. change (item_key_name Query) with (lit "query").
    rewrite Hv. exact Htruthy.
Qed.

Lemma question_labels_cases items :
  (JNull ∈ items /\ question_labels items = Throw) \/
  ((JNull ∉ items) /\
   exists labels, question_labels items = Ok labels /\
                  length labels = length items).
Proof.
  unfold question_labels. induction items as [|item items IH].
  - right. split; [apply not_elem_of_nil|]. exists []. split; reflexivity.
  - assert (item = JNull \/
            (item <> JNull /\ exists p, item_get item Question = Ok p)) as [->|[Hitem [p Hp]]].
    { destruct item; [now left|right; split; [discriminate|eexists; reflexivity]..]. }
    { left. split; [apply list_elem_of_here|reflexivity]. }
    cbn [map_items]. rewrite Hp. cbn [rbind].
    destruct IH as [[Hin Hthrow]|[Hnotin (labels & Hlabels & Hlen)]].
    + left. split; [now apply list_elem_of_further|]. now rewrite Hthrow.
    + right. split.
      * rewrite not_elem_of_cons. split; [congruence|exact Hnotin].
      * exists (p :: labels). rewrite Hlabels. cbn. split; [reflexivity|].
        now rewrite Hlen.
Qed.

(** X18. [RelatedQuestions] has no such filter: evaluating it throws exactly
    when an entry is [null], and otherwise yields one button per entry. *)
Theorem question_labels_need_entries items :
  (JNull ∈ items <-> question_labels items = Throw) /\
  ((JNull ∉ items) <->
   exists labels, question_labels items = Ok labels /\
                  length labels = length items).
Proof.
  destruct (question_labels_cases items)
    as [[Hin Hthrow]|[Hnotin (labels & Hlabels & Hlen)]].
  - split; split; try tauto.
    intros (labels & Hlabels & _). congruence.
  - split; split; try tauto; try congruence. eauto.
Qed.

(** * The request URL *)

Lemma hex_digit_unreserved n : (n < 16)%N -> unreserved (hex_digit n) = true.
Proof.
  intros Hn.
  assert (forallb (fun k => unreserved (hex_digit (N.of_nat k))) (seq 0 16) = true)
    as Hall by (vm_compute; reflexivity).
  rewrite forallb_forall in Hall.
  rewrite <- (N2Nat.id n). apply Hall. apply in_seq. lia.
Qed.

Lemma percent_safe b :
  (b < 256)%N -> Forall (fun c => url_safe c = true) (percent b).
Proof.
  intros Hb. unfold percent, url_safe. repeat constructor.
  - rewrite hex_digit_unreserved; [reflexivity|].
    apply N.Div0.div_lt_upper_bound. lia.
  - rewrite hex_digit_unreserved; [reflexivity|].
    apply N.mod_lt. lia.
Qed.

Lemma utf8_bytes cp :
  (cp < 0x110000)%N -> Forall (fun b => (b < 256)%N) (utf8 cp).
Proof.
  intros Hcp. unfold utf8.
  assert (forall a, (a mod 0x40 < 0x40)%N) as Hmod by (intros; apply N.mod_lt; lia).
  destruct (N.ltb_spec cp 0x80); [repeat constructor; lia|].
  destruct (N.ltb_spec cp 0x800).
  { assert (cp / 0x40 < 0x20)%N by (apply N.Div0.div_lt_upper_bound; lia).
    pose proof (Hmod cp). repeat constructor; lia. }
  destruct (N.ltb_spec cp 0x10000).
  { assert (cp / 0x1000 < 0x10)%N by (apply N.Div0.div_lt_upper_bound; lia).
    pose proof (Hmod cp). pose proof (Hmod (cp / 0x40)%N).
    repeat constructor; lia. }
  assert (cp / 0x40000 < 0x5)%N by (apply N.Div0.div_lt_upper_bound; lia).
  pose proof (Hmod cp). pose proof (Hmod (cp / 0x40)%N).
  pose proof (Hmod (cp / 0x1000)%N).
  repeat constructor; lia.
Qed.

Lemma escape_safe cp :
  (cp < 0x110000)%N -> Forall (fun c => url_safe c = true) (escape cp).
Proof.
  intros Hcp. unfold escape. apply Forall_concat, Forall_forall.
  intros bytes Hin. apply list_elem_of_In, in_map_iff in Hin as (b & <- & Hb).
  apply percent_safe.
  pose proof (utf8_bytes cp Hcp) as Hall. rewrite Forall_forall in Hall.
  apply Hall, list_elem_of_In, Hb.
Qed.

Lemma encodeURIComponent_safe_upto n s encoded :
  length s <= n ->
  Forall (fun c => (c < 65536)%N) s ->
  encodeURIComponent s = Ok encoded ->
  Forall (fun c => url_safe c = true) encoded.
Proof.
  revert s encoded. induction n as [|n IH]; intros s encoded Hlen Hunits.
  { destruct s; [|cbn in Hlen; lia]. now intros [= <-]. }
  destruct s as [|c rest]; [now intros [= <-]|].
  cbn [encodeURIComponent]. cbn in Hlen.
  apply Forall_cons in Hunits as [Hc Hrest].
  destruct (unreserved c) eqn:Hsafe.
  { destruct (encodeURIComponent rest) as [r|] eqn:Hr; [|discriminate].
    intros [= <-]. constructor.
    - unfold url_safe. now rewrite Hsafe.
    - apply (IH rest); [lia|assumption|assumption]. }
  destruct (low_surrogate c) eqn:Hlow; [discriminate|].
  destruct (high_surrogate c) eqn:Hhigh.
  - destruct rest as [|c2 rest']; [discriminate|].
    destruct (low_surrogate c2) eqn:Hlow2; [|discriminate].
    destruct (encodeURIComponent rest') as [r|] eqn:Hr; [|discriminate].
    intros [= <-]. apply Forall_cons in Hrest as [Hc2 Hrest'].
    apply Forall_app. split.
    + apply escape_safe. unfold high_surrogate, low_surrogate in *.
      apply andb_prop in Hhigh as [H1 H2], Hlow2 as [H3 H4].
      apply N.leb_le in H1, H2, H3, H4. lia.
    + apply (IH rest'); [cbn in Hlen; lia|assumption|assumption].
  - destruct (encodeURIComponent rest) as [r|] eqn:Hr; [|discriminate].
    intros [= <-]. apply Forall_app. split.
    + apply escape_safe. lia.
    + apply (IH rest); [lia|assumption|assumption].
Qed.

(** X19. Whatever the query, as long as it is a string of 16-bit code
    units, the text put after [query=] holds only unreserved characters and
    percent escapes: letters, digits, the nine marks that
    [encodeURIComponent] leaves alone and the percent sign.  It cannot hold
    an ampersand, a hash, a question mark, an equals sign, a slash, a space
    or a quote. *)
Theorem encoded_query_is_url_safe query encoded :
  Forall (fun c => (c < 65536)%N) query ->
  encodeURIComponent query = Ok encoded ->
  Forall (fun c => url_safe c = true) encoded /\
  forallb (fun c => negb (url_safe c)) (lit "&#?=/ " ++ dquote) = true.
Proof.
  intros Hunits Hencoded. split; [|vm_compute; reflexivity].
  now apply (encodeURIComponent_safe_upto (length query) query).
Qed.

Lemma encoded_query_is_url_safe_witness :
  Forall (fun c => url_safe c = true) (lit "best%20coffee%20near%20me").
Proof.
  apply (encoded_query_is_url_safe coffee_query).
  - vm_compute. repeat constructor.
  - vm_compute. reflexivity.
Defined.

(** * Edge cases of the hook *)

(** X20. A query that [encodeURIComponent] rejects (it holds half of a
    surrogate pair) never reaches the network: the three attempts fail
    without a request, the two waits still take place, and the dispatch ends
    with the connectivity notice. *)
Theorem unencodable_query_is_never_sent q st w :
  encodeURIComponent q = Throw ->
  fetches (log_of (handleSendMessage q st w)) = 0 /\
  io (log_of (handleSendMessage q st w)) = [Sleep 2000; Sleep 4000] /\
  messages (send_state q st w) =
    buffer_before st ++ [user_message q; notice_message].
Proof.
  intros Hthrow.
  assert (forall k, settles q w k = Throw) as Hsettles.
  { intros k. unfold settles, attempt_result. now rewrite Hthrow. }
  assert (attempts_io q w = [Sleep 2000; Sleep 4000]) as Hio.
  { unfold attempts_io, request_log. now rewrite !Hsettles, Hthrow. }
  assert (final_reply q w = notice_message) as Hreply.
  { unfold final_reply. now rewrite !Hsettles. }
  rewrite handleSendMessage_log, send_state_eq, Hio, Hreply.
  destruct (session_log_quiet st w) as (Hf & Hquiet & _).
  repeat split.
  - rewrite fetches_app, Hf. reflexivity.
  - rewrite io_app, Hquiet. reflexivity.
Qed.

Lemma unencodable_query_is_never_sent_witness :
  io (log_of (handleSendMessage [0xD800%N] initial_state offline_world)) =
    [Sleep 2000; Sleep 4000] /\
  messages (send_state [0xD800%N] initial_state offline_world) =
    [user_message [0xD800%N]; notice_message].
Proof.
  destruct (unencodable_query_is_never_sent [0xD800%N] initial_state offline_world)
    as (_ & Hio & Hmessages); [reflexivity|].
  split; [exact Hio|exact Hmessages].
Defined.

(** X21. Mounting with a stored empty text or a stored empty list gives the
    same state as mounting with nothing stored: one new session, active.
    With a stored text that does not parse the effect throws before any
    update is queued, so the hook is left with no session at all. *)
Theorem mount_edge_cases w :
  fst (snd (initialize (with_item EmptyText w))) =
    fst (snd (initialize (with_item NoItem w))) /\
  fst (snd (initialize (with_item (SessionsJson []) w))) =
    fst (snd (initialize (with_item NoItem w))) /\
  sessions (fst (snd (initialize (with_item NoItem w)))) = [fresh_session w] /\
  fst (initialize (with_item Unparsable w)) = (Throw, []) /\
  fst (snd (initialize (with_item Unparsable w))) = initial_state.
Proof.
  destruct (initialize_empty_array w) as [_ ->].
  destruct (initialize_without_sessions NoItem w) as [_ ->]; [now left|].
  destruct (initialize_without_sessions EmptyText w) as [_ ->]; [now right|].
  repeat split.
Qed.

(** * Bounds and no-ops *)

Lemma filter_all {A} (P : A -> Prop) `{!forall x, Decision (P x)} (l : list A) :
  (forall x, x ∈ l -> P x) -> filter P l = l.
Proof.
  induction l as [|y l IH]; intros Hall; [reflexivity|].
  rewrite filter_cons_True by (apply Hall, list_elem_of_here).
  f_equal. apply IH. intros x Hx. apply Hall. now apply list_elem_of_further.
Qed.

(** X23. A title that [getChatTitle] returns never has more than 33
    characters: at most 30 of the first user message and the three dots, or
    the eight of "New Chat". *)
Theorem getChatTitle_is_short msgs title :
  getChatTitle msgs = Some title -> length title <= 33.
Proof.
  unfold getChatTitle, slice0.
  destruct (List.find _ msgs) as [m|].
  - destruct (ChatMessage.content m) as [| | |c| |]; try discriminate.
    intros [= <-].
    destruct (length (take 30 c) <? length c).
    + rewrite length_app, length_take.
      change (length (lit "...")) with 3. lia.
    + rewrite length_take. lia.
  - intros [= <-]. change (length (lit "New Chat")) with 8. lia.
Qed.

Lemma getChatTitle_is_short_witness :
  length (lit "where can I find the best coff...") <= 33.
Proof.
  apply (getChatTitle_is_short
           [user_message (lit "where can I find the best coffee near me")]).
  reflexivity.
Defined.

(** X24. In a store whose active id names one of its sessions, deleting an
    id that no session has changes nothing. *)
Theorem deleteSession_unknown_id sessionId st w :
  sessions st <> [] ->
  active_in_list st ->
  (forall x, x ∈ sessions st -> ChatSession.id x <> sessionId) ->
  perform (DeleteSession sessionId) (st, w) = (st, w).
Proof.
  intros Hne Hactive Hother. rewrite perform_delete. cbv zeta.
  rewrite (filter_all _ _ Hother).
  destruct (decide (activeSessionId st = Some sessionId)) as [Hsame|_].
  - destruct (Hactive Hne) as (x & Hx & Hax).
    rewrite Hax in Hsame. injection Hsame as Hid.
    now destruct (Hother x Hx).
  - now destruct st.
Qed.

Lemma deleteSession_unknown_id_witness :
  let st := mkState [older_session] (Some (ChatSession.id older_session))
              (ChatSession.messages older_session) false in
  perform (DeleteSession (lit "nosuchid")) (st, offline_world) =
    (st, offline_world).
Proof.
  cbv zeta. apply deleteSession_unknown_id.
  - discriminate.
  - intros _. exists older_session. split; [apply list_elem_of_here|reflexivity].
  - intros x Hx. cbn [sessions] in Hx.
    apply list_elem_of_singleton in Hx as ->. discriminate.
Defined.
